(** * Illuma core: the injection context, the plugin registry and the container

    A shallow embedding of the resolution engine of [@illuma/core] and the
    properties its specification states about it.

    - [InjectionContext]  the process-wide session tracker ([open], [scan],
                          [instantiate], [close])
    - [Diagnostics]       [enableIllumaDiagnostics] and the plugin registries
    - [TokenModel]        api/token.ts and the injectable marker
    - [Extractor]         provider normalisation
    - [Container]         node store, bootstrap, [get] and [produce]
    - [Injector]          the injector handle

    JavaScript functions are state transformers over the static fields they
    can reach; a [throw] is the [Throw] outcome. *)

From Stdlib Require Import ZArith Lia.
From stdpp Require Import base option list strings gmap.

Set Warnings "-register-all".
Local Open Scope string_scope.
Local Open Scope list_scope.

(** ** Values, errors and outcomes *)

(** Tokens are compared by reference; a [TokenRef] is that reference. *)
Abbreviation TokenRef := nat (only parsing).

(** The JavaScript values that flow through the container.  [VObj a c fs] is
    the object at address [a], an instance of class [c]; [VPlaceholder] is the
    [SHAPE_SHIFTER] proxy handed out in scan mode: every property read and
    every call on it yields the proxy again. *)
Inductive Value : Type :=
  | VUndefined
  | VNull
  | VBool (b : bool)
  | VNum (z : Z)
  | VStr (s : string)
  | VObj (addr : nat) (cls : string) (fields : list Value)
  | VArr (items : list Value)
  | VPlaceholder.

(** [InjectionError] codes, and [Thrown v] for any other thrown value.  The
    two bootstrap codes answer calls made on the wrong side of [bootstrap]. *)
Inductive Err : Type :=
  | InvalidProvider
  | UnknownToken (t : TokenRef)
  | CircularDependency (t : TokenRef)
  | CalledOutsideContext
  | NotBootstrapped
  | AlreadyBootstrapped
  | Thrown (v : Value).

Inductive Outcome (A : Type) : Type :=
  | Return (a : A)
  | Throw (e : Err).
Arguments Return {A} a.
Arguments Throw {A} e.

(** ** The injection context *)

(** [InjectionNode]: one recorded request, a token and its [optional] mark.
    A set holds a request once: nodes are compared by what they hold. *)
Record InjectionNode : Type := {
  node_token : TokenRef;
  node_optional : bool
}.

Global Instance InjectionNode_eq_dec : EqDecision InjectionNode.
Proof. solve_decision. Defined.

(** [InjectorFn = (token, optional?) => any]. *)
Definition InjectorFn : Type := TokenRef -> bool -> Outcome Value.

(** The three static fields of [InjectionContext].  A JavaScript [Set] keeps
    insertion order, so [calls] is the list of its members in that order. *)
Record Ctx : Type := {
  contextOpen : bool;
  calls : list InjectionNode;
  injector : option InjectorFn
}.

(** Computations over the static fields that may throw. *)
Definition M (A : Type) : Type := Ctx -> Outcome A * Ctx.

Global Instance M_ret : MRet M := fun A a s => (Return a, s).

Global Instance M_bind : MBind M := fun A B k m s =>
  match m s with
  | (Return a, s') => k a s'
  | (Throw e, s') => (Throw e, s')
  end.

Definition throw {A} (e : Err) : M A := fun s => (Throw e, s).

(** A computed outcome, returned or thrown as it is. *)
Definition outcome {A} (r : Outcome A) : M A := fun s => (r, s).

Definition gets {A} (f : Ctx -> A) : M A := fun s => (Return (f s), s).

Definition modify (f : Ctx -> Ctx) : M unit := fun s => (Return tt, f s).

(** [try { body } catch { handler }]. *)
Definition try_catch {A} (body : M A) (handler : Err -> M A) : M A := fun s =>
  match body s with
  | (Return a, s') => (Return a, s')
  | (Throw e, s') => handler e s'
  end.

(** [try { body } finally { fin }]: [fin] runs on both exits and an error of
    its own replaces the pending outcome. *)
Definition try_finally {A} (body : M A) (fin : M unit) : M A := fun s =>
  match body s with
  | (r, s') =>
      match fin s' with
      | (Return _, s'') => (r, s'')
      | (Throw e, s'') => (Throw e, s'')
      end
  end.

(** [for (const x of xs) body(x)]. *)
Fixpoint for_of {A} (xs : list A) (body : A -> M unit) : M unit :=
  match xs with
  | [] => mret tt
  | x :: rest => body x ;; for_of rest body
  end.

(** [Set.prototype.add]: a member keeps its place, a new one goes last. *)
Definition set_add (x : InjectionNode) (s : list InjectionNode) : list InjectionNode :=
  if decide (x ∈ s) then s else s ++ [x].

(** An argument typed [any]: a function, or a plain value. *)
Inductive JsArg : Type :=
  | ArgFunction (f : M Value)
  | ArgValue (v : Value).

Definition typeof (a : JsArg) : string :=
  match a with
  | ArgFunction _ => "function"
  | ArgValue VUndefined => "undefined"
  | ArgValue (VBool _) => "boolean"
  | ArgValue (VNum _) => "number"
  | ArgValue (VStr _) => "string"
  | ArgValue VPlaceholder => "function"
  | ArgValue _ => "object"
  end.

(** [a()]. *)
Definition call (a : JsArg) : M Value :=
  match a with
  | ArgFunction f => f
  | ArgValue VPlaceholder => mret VPlaceholder
  | ArgValue _ => throw (Thrown (VStr "TypeError: not a function"))
  end.

(** [iContextScanner.scan(factory)]. *)
Definition Scanner : Type := JsArg -> M (list InjectionNode).

Module InjectionContext.

Definition set_contextOpen (b : bool) (s : Ctx) : Ctx :=
  {| contextOpen := b; calls := calls s; injector := injector s |}.
Definition set_calls (c : list InjectionNode) (s : Ctx) : Ctx :=
  {| contextOpen := contextOpen s; calls := c; injector := injector s |}.
Definition set_injector (i : option InjectorFn) (s : Ctx) : Ctx :=
  {| contextOpen := contextOpen s; calls := calls s; injector := i |}.

(** The static initialisers. *)
Definition initial : Ctx :=
  {| contextOpen := false; calls := []; injector := None |}.

(** [injector || null]: a function is truthy, [undefined] is not. *)
Definition or_null (i : option InjectorFn) : option InjectorFn :=
  match i with
  | Some f => Some f
  | None => None
  end.

(** [InjectionContext.calls.add(node)]. *)
Definition add_call (node : InjectionNode) : M unit :=
  modify (fun s => set_calls (set_add node (calls s)) s).

Definition open (inj : option InjectorFn) : M unit :=
  modify (set_calls []) ;;
  modify (set_contextOpen true) ;;
  modify (set_injector (or_null inj)).

Definition close : M unit :=
  modify (set_contextOpen false) ;;
  modify (set_calls []) ;;
  modify (set_injector None).

Definition getCalls : M (list InjectionNode) :=
  o ← gets contextOpen;
  if negb o then throw CalledOutsideContext
  else gets calls.

Definition scan (scanners : list Scanner) (factory : JsArg) : M (list InjectionNode) :=
  if negb (String.eqb (typeof factory) "function") then mret []
  else
    open None ;;
    try_catch (call factory ;; mret tt) (fun _ => mret tt) ;;
    for_of scanners (fun scanner =>
      scanned ← scanner factory;
      for_of scanned add_call) ;;
    injections ← gets calls;
    close ;;
    mret injections.

Definition instantiate {T} (factory : M T) (inj : InjectorFn) : M T :=
  open (Some inj) ;;
  try_finally factory close.

End InjectionContext.

(** ** Diagnostics switch (plugins/diagnostics) *)

Module Diagnostics.

(** References to registered plugins. *)
Inductive DiagnosticsModule : Type :=
  | DiagnosticsDefaultReporter
  | CustomModule (id : nat).

Inductive MiddlewareRef : Type :=
  | performanceDiagnostics
  | CustomMiddleware (id : nat).

Global Instance DiagnosticsModule_eq_dec : EqDecision DiagnosticsModule.
Proof. solve_decision. Defined.
Global Instance MiddlewareRef_eq_dec : EqDecision MiddlewareRef.
Proof. solve_decision. Defined.

(** The module-level [state] object and the two global registries the
    function writes to. *)
Record PluginState : Type := {
  enabled : bool;
  diagnostics : list DiagnosticsModule;
  globalMiddlewares : list MiddlewareRef
}.

(** Modelled from the spec: [Illuma.extendDiagnostics] (the [Illuma] class is
    missing from the source tree).  Modules are kept in registration
    order, as the plugin-container tests show. *)
Definition extendDiagnostics (m : DiagnosticsModule) (s : PluginState) : PluginState :=
  {| enabled := enabled s;
     diagnostics := diagnostics s ++ [m];
     globalMiddlewares := globalMiddlewares s |}.

(** Modelled from the spec: [Illuma.registerGlobalMiddleware] (same class):
    global middlewares run in registration order. *)
Definition registerGlobalMiddleware (m : MiddlewareRef) (s : PluginState) : PluginState :=
  {| enabled := enabled s;
     diagnostics := diagnostics s;
     globalMiddlewares := globalMiddlewares s ++ [m] |}.

Definition set_enabled (b : bool) (s : PluginState) : PluginState :=
  {| enabled := b;
     diagnostics := diagnostics s;
     globalMiddlewares := globalMiddlewares s |}.

Definition enableIllumaDiagnostics (s : PluginState) : PluginState :=
  if enabled s then s
  else
    let s := set_enabled true s in
    let s := extendDiagnostics DiagnosticsDefaultReporter s in
    registerGlobalMiddleware performanceDiagnostics s.

Definition __resetDiagnosticsState (s : PluginState) : PluginState :=
  set_enabled false s.

(** The state when the module has just been loaded, with whatever other
    plugins are already registered. *)
Definition loaded (ds : list DiagnosticsModule) (ms : list MiddlewareRef) : PluginState :=
  {| enabled := false; diagnostics := ds; globalMiddlewares := ms |}.

(** How many entries of a registry are [x]. *)
Definition registered {A} `{EqDecision A} (x : A) (l : list A) : nat :=
  length (filter (fun y => y = x) l).

End Diagnostics.

(** ** Tokens and the injectable marker (api/token.ts, api/decorator.ts) *)

(** A zero-argument producer.  The argument is the address at which an object
    it allocates with [new] will live. *)
Definition Producer : Type := nat -> M Value.

(** Modelled from the spec: [nodeInject], the dependency-request primitive
    (api/injection.ts is missing from the source tree).  It needs an open
    session, records the request, and answers with the resolver's result, or
    with the placeholder when no resolver is installed. *)
Definition nodeInject (t : TokenRef) (optional : bool) : M Value :=
  o ← gets contextOpen;
  if negb o then throw CalledOutsideContext
  else
    _ ← InjectionContext.add_call {| node_token := t; node_optional := optional |};
    inj ← gets injector;
    match inj with
    | Some resolve => outcome (resolve t optional)
    | None => mret VPlaceholder
    end.

Module TokenModel.

Inductive TokenClass : Type :=
  | ClsNodeBase
  | ClsNodeToken
  | ClsMultiNodeToken.

(** [NodeBase]: [name] and [opts] (of which only [factory] matters here).
    [ref] is the object's identity and [cls] the class it was built with. *)
Record NodeBase : Type := {
  ref : TokenRef;
  name : string;
  opts_factory : option Producer;
  cls : TokenClass
}.

Definition NodeToken (r : TokenRef) (n : string) (f : option Producer) : NodeBase :=
  {| ref := r; name := n; opts_factory := f; cls := ClsNodeToken |}.

Definition MultiNodeToken (r : TokenRef) (n : string) (f : option Producer) : NodeBase :=
  {| ref := r; name := n; opts_factory := f; cls := ClsMultiNodeToken |}.

(** The [multi] property: [true] on a [MultiNodeToken], [false] on a
    [NodeToken], absent (falsy) on a bare [NodeBase]. *)
Definition multi (t : NodeBase) : bool :=
  match cls t with
  | ClsMultiNodeToken => true
  | _ => false
  end.

Definition toString (t : NodeBase) : string :=
  match cls t with
  | ClsNodeBase => "Token[" +:+ name t +:+ "]"
  | ClsNodeToken => "NodeToken[" +:+ name t +:+ "]"
  | ClsMultiNodeToken => "MultiNodeToken[" +:+ name t +:+ "]"
  end.

(** [specimen instanceof NodeToken || specimen instanceof MultiNodeToken]. *)
Definition isNodeBase (specimen : NodeBase) : bool :=
  match cls specimen with
  | ClsNodeBase => false
  | _ => true
  end.

(** A class: its name, the requests its field initialisers make, in order,
    and the token stored under [INJECTION_SYMBOL], if any. *)
Record Constructor : Type := {
  ctor_name : string;
  ctor_fields : list InjectionNode;
  ctor_marker : option NodeBase
}.

(** [() => new ctor()]. *)
Definition construct (k : Constructor) : Producer := fun addr =>
  fields ← mapM (fun d => nodeInject (node_token d) (node_optional d)) (ctor_fields k);
  mret (VObj addr (ctor_name k) fields).

(** [NodeInjectable()(ctor)]; [r] is the identity of the token it creates. *)
Definition NodeInjectable (r : TokenRef) (k : Constructor) : Constructor :=
  {| ctor_name := ctor_name k;
     ctor_fields := ctor_fields k;
     ctor_marker := Some (NodeToken r ("_" +:+ ctor_name k) (Some (construct k))) |}.

End TokenModel.

(** ** Provider normalisation (provider/extractor.ts) *)

Module Extractor.
Import TokenModel.

(** An explicit registration object; a field is [Some] when the property is
    present. *)
Record Provider : Type := {
  provide : option NodeBase;
  value : option Value;
  factory : option Producer;
  useClass : option Constructor;
  alias : option NodeBase
}.

(** What [container.provide] may be handed: a function that is no
    constructor, a class, or a registration object. *)
Inductive Registration : Type :=
  | PlainFunction (f : Producer)
  | BareConstructor (k : Constructor)
  | Explicit (p : Provider).

(** What normalisation yields: a producer, or the token an alias points to. *)
Inductive Extracted : Type :=
  | ExProducer (f : Producer)
  | ExAlias (t : NodeBase).

(** [() => provider.value]. *)
Definition value_producer (v : Value) : Producer := fun _ => mret v.

(** Modelled from the spec: [extractProvider] (provider/extractor.ts is missing
    from the source tree, its tests are there).  A registration object must
    carry exactly one of value, factory, useClass and alias; a class is
    accepted through its injectable marker; anything else is an
    [InvalidProvider]. *)
Definition extractProvider (r : Registration) : M Extracted :=
  match r with
  | PlainFunction _ => throw InvalidProvider
  | BareConstructor k =>
      match ctor_marker k with
      | Some _ => mret (ExProducer (construct k))
      | None => throw InvalidProvider
      end
  | Explicit p =>
      match value p, factory p, useClass p, alias p with
      | Some v, None, None, None => mret (ExProducer (value_producer v))
      | None, Some f, None, None => mret (ExProducer f)
      | None, None, Some k, None => mret (ExProducer (construct k))
      | None, None, None, Some t => mret (ExAlias t)
      | _, _, _, _ => throw InvalidProvider
      end
  end.

(** Modelled from the spec: [normalize(registration) -> (token, producer)].
    The token is the [provide] field, or the marker of a bare class. *)
Definition normalize (r : Registration) : M (NodeBase * Extracted) :=
  x ← extractProvider r;
  match r with
  | PlainFunction _ => throw InvalidProvider
  | BareConstructor k =>
      match ctor_marker k with
      | Some tok => mret (tok, x)
      | None => throw InvalidProvider
      end
  | Explicit p =>
      match provide p with
      | Some tok => mret (tok, x)
      | None => throw InvalidProvider
      end
  end.

(** The producer variants a registration object carries, in the order
    value, factory, useClass, alias. *)
Definition variants (p : Provider) : list Extracted :=
  (ExProducer <$> (value_producer <$> option_list (value p)))
  ++ (ExProducer <$> option_list (factory p))
  ++ (ExProducer <$> (construct <$> option_list (useClass p)))
  ++ (ExAlias <$> option_list (alias p)).

(** The specification's reading: the one variant of a recognised shape. *)
Definition declared (r : Registration) : option Extracted :=
  match r with
  | PlainFunction _ => None
  | BareConstructor k =>
      match ctor_marker k with
      | Some _ => Some (ExProducer (construct k))
      | None => None
      end
  | Explicit p =>
      match variants p with
      | [x] => Some x
      | _ => None
      end
  end.

Definition value_provider (tok : NodeBase) (v : Value) : Provider :=
  {| provide := Some tok; value := Some v; factory := None;
     useClass := None; alias := None |}.
Definition factory_provider (tok : NodeBase) (f : Producer) : Provider :=
  {| provide := Some tok; value := None; factory := Some f;
     useClass := None; alias := None |}.
Definition class_provider (tok : NodeBase) (k : Constructor) : Provider :=
  {| provide := Some tok; value := None; factory := None;
     useClass := Some k; alias := None |}.
Definition alias_provider (tok target : NodeBase) : Provider :=
  {| provide := Some tok; value := None; factory := None;
     useClass := None; alias := Some target |}.
(** The object [{}]. *)
Definition empty_provider : Provider :=
  {| provide := None; value := None; factory := None;
     useClass := None; alias := None |}.

End Extractor.

(** ** The container: node store, bootstrap, get and produce *)

Module Container.
Import TokenModel Extractor.

(** Modelled from the spec: the graph node (provider/tree-node.ts is missing
    from the source tree): owning token, normalised producer, the
    dependencies found by the scan, the cached instance, and the [used] and
    [resolving] flags. *)
Record TreeNode : Type := {
  n_token : NodeBase;
  n_factory : Producer;
  n_scanned : bool;
  n_deps : list InjectionNode;
  n_instance : option Value;
  n_used : bool;
  n_resolving : bool
}.

(** One node for a single token, one node list for a multi token. *)
Inductive Entry : Type :=
  | Single (n : TreeNode)
  | Multi (ns : list TreeNode).

(** Modelled from the spec: the container (container/container.ts is missing
    from the source tree).  A root container: the node store keyed
    by token identity, the tokens in order of first registration, the
    bootstrapped flag, the next free object address, and the process-wide
    injection context.  Middlewares and parent containers are left out. *)
Record State : Type := {
  store : gmap nat Entry;
  order : list nat;
  bootstrapped : bool;
  next_addr : nat;
  ctx : Ctx
}.

Definition empty : State :=
  {| store := ∅; order := []; bootstrapped := false; next_addr := 0;
     ctx := InjectionContext.initial |}.

Definition set_store (st : gmap nat Entry) (c : State) : State :=
  {| store := st; order := order c; bootstrapped := bootstrapped c;
     next_addr := next_addr c; ctx := ctx c |}.
Definition set_ctx (x : Ctx) (c : State) : State :=
  {| store := store c; order := order c; bootstrapped := bootstrapped c;
     next_addr := next_addr c; ctx := x |}.
Definition set_order (o : list nat) (c : State) : State :=
  {| store := store c; order := o; bootstrapped := bootstrapped c;
     next_addr := next_addr c; ctx := ctx c |}.
Definition set_bootstrapped (b : bool) (c : State) : State :=
  {| store := store c; order := order c; bootstrapped := b;
     next_addr := next_addr c; ctx := ctx c |}.
Definition bump_addr (c : State) : State :=
  {| store := store c; order := order c; bootstrapped := bootstrapped c;
     next_addr := S (next_addr c); ctx := ctx c |}.

Definition set_instance (v : Value) (n : TreeNode) : TreeNode :=
  {| n_token := n_token n; n_factory := n_factory n; n_scanned := n_scanned n;
     n_deps := n_deps n; n_instance := Some v; n_used := n_used n;
     n_resolving := n_resolving n |}.
Definition set_resolving (b : bool) (n : TreeNode) : TreeNode :=
  {| n_token := n_token n; n_factory := n_factory n; n_scanned := n_scanned n;
     n_deps := n_deps n; n_instance := n_instance n; n_used := n_used n;
     n_resolving := b |}.
Definition set_used (n : TreeNode) : TreeNode :=
  {| n_token := n_token n; n_factory := n_factory n; n_scanned := n_scanned n;
     n_deps := n_deps n; n_instance := n_instance n; n_used := true;
     n_resolving := n_resolving n |}.
Definition set_deps (ds : list InjectionNode) (n : TreeNode) : TreeNode :=
  {| n_token := n_token n; n_factory := n_factory n; n_scanned := true;
     n_deps := ds; n_instance := n_instance n; n_used := n_used n;
     n_resolving := n_resolving n |}.

Definition nodes_of (e : Entry) : list TreeNode :=
  match e with
  | Single n => [n]
  | Multi ns => ns
  end.

Definition map_entry (f : TreeNode -> TreeNode) (e : Entry) : Entry :=
  match e with
  | Single n => Single (f n)
  | Multi ns => Multi (f <$> ns)
  end.

(** Apply [f] to the [i]-th node of the entry. *)
Definition alter_entry (f : TreeNode -> TreeNode) (i : nat) (e : Entry) : Entry :=
  match e with
  | Single n => match i with 0 => Single (f n) | S _ => Single n end
  | Multi ns => Multi (alter f i ns)
  end.

Definition lookup_node (t i : nat) (c : State) : option TreeNode :=
  e ← store c !! t; nodes_of e !! i.

Definition update_node (t i : nat) (f : TreeNode -> TreeNode) (c : State) : State :=
  set_store (alter (alter_entry f i) t (store c)) c.

Definition mark_used (t : nat) (c : State) : State :=
  set_store (alter (map_entry set_used) t (store c)) c.

(** Modelled from the spec: the resolved value of an entry: the node's cached
    instance, or for a multi token the array of its nodes' instances in
    registration order; [None] while a node is unresolved. *)
Definition entry_value (e : Entry) : option Value :=
  match e with
  | Single n => n_instance n
  | Multi ns => VArr <$> mapM n_instance ns
  end.

Definition cached (c : State) (t : nat) : option Value :=
  e ← store c !! t; entry_value e.

(** Modelled from the spec: the live resolver bound into the injection
    context: it answers from the cache; an unknown token is an error unless
    the request is optional, in which case the value is absent. *)
Definition resolver (c : State) : InjectorFn := fun t optional =>
  match cached c t with
  | Some v => Return v
  | None => if optional then Return VNull else Throw (UnknownToken t)
  end.

(** Modelled from the spec: an alias resolves to whatever its target resolves
    to. *)
Definition alias_producer (target : NodeBase) : Producer :=
  fun _ => nodeInject (ref target) false.

Definition producer_of (x : Extracted) : Producer :=
  match x with
  | ExProducer f => f
  | ExAlias t => alias_producer t
  end.

Definition new_node (tok : NodeBase) (f : Producer) : TreeNode :=
  {| n_token := tok; n_factory := f; n_scanned := false; n_deps := [];
     n_instance := None; n_used := false; n_resolving := false |}.

(** Modelled from the spec: a multi token accumulates nodes in registration
    order; a single token keeps its last registration. *)
Definition add_node (tok : NodeBase) (n : TreeNode) (st : gmap nat Entry) : gmap nat Entry :=
  if multi tok then
    match st !! ref tok with
    | Some (Multi ns) => <[ref tok := Multi (ns ++ [n])]> st
    | _ => <[ref tok := Multi [n]]> st
    end
  else <[ref tok := Single n]> st.

Definition provide_one (r : Registration) (c : State) : Outcome unit * State :=
  if bootstrapped c then (Throw AlreadyBootstrapped, c)
  else
    match normalize r (ctx c) with
    | (Throw e, x) => (Throw e, set_ctx x c)
    | (Return (tok, p), x) =>
        (Return tt,
         set_ctx x
           (set_order (if decide (ref tok ∈ order c) then order c
                       else order c ++ [ref tok])
              (set_store (add_node tok (new_node tok (producer_of p)) (store c)) c)))
    end.

(** Modelled from the spec: [provide(registrations)]. *)
Fixpoint provide (rs : list Registration) (c : State) : Outcome unit * State :=
  match rs with
  | [] => (Return tt, c)
  | r :: rest =>
      match provide_one r c with
      | (Return _, c') => provide rest c'
      | (Throw e, c') => (Throw e, c')
      end
  end.

(** *** Bootstrap: the scan phase *)

(** Modelled from the spec: scan a node's producer, unless it has been
    scanned before. *)
Definition scan_node (scanners : list Scanner) (addr : nat) (n : TreeNode) : M TreeNode :=
  if n_scanned n then mret n
  else
    deps ← InjectionContext.scan scanners (ArgFunction (n_factory n addr));
    mret (set_deps deps n).

Definition scan_entry (scanners : list Scanner) (addr : nat) (e : Entry) : M Entry :=
  match e with
  | Single n => n' ← scan_node scanners addr n; mret (Single n')
  | Multi ns => ns' ← mapM (scan_node scanners addr) ns; mret (Multi ns')
  end.

Fixpoint scan_tokens (scanners : list Scanner) (ts : list nat) (c : State)
    : Outcome unit * State :=
  match ts with
  | [] => (Return tt, c)
  | t :: rest =>
      match store c !! t with
      | None => scan_tokens scanners rest c
      | Some e =>
          match scan_entry scanners (next_addr c) e (ctx c) with
          | (Throw err, x) => (Throw err, set_ctx x c)
          | (Return e', x) =>
              scan_tokens scanners rest (set_ctx x (set_store (<[t := e']> (store c)) c))
          end
      end
  end.

(** *** Bootstrap: the resolve phase *)

(** A resolution either runs out of the depth budget ([None]) or ends,
    normally or with an error, in a new state. *)
Definition Resolution : Type := option (Outcome unit * State).

(** Modelled from the spec: resolve the dependencies of a node, in order;
    [resolve] resolves one token. A missing token is an error unless the
    request is optional. *)
Fixpoint resolve_deps (resolve : nat -> State -> Resolution)
    (deps : list InjectionNode) (c : State) : Resolution :=
  match deps with
  | [] => Some (Return tt, c)
  | d :: rest =>
      match store c !! node_token d with
      | None =>
          if node_optional d then resolve_deps resolve rest c
          else Some (Throw (UnknownToken (node_token d)), c)
      | Some _ =>
          match resolve (node_token d) c with
          | None => None
          | Some (Throw e, c') => Some (Throw e, c')
          | Some (Return _, c') =>
              resolve_deps resolve rest (mark_used (node_token d) c')
          end
      end
  end.

(** Modelled from the spec: resolve the [i]-th node of token [t]: a cached
    instance is kept, a node met while it is resolving is a cycle; otherwise
    the node is marked resolving, its dependencies are resolved, its producer
    is instantiated with the live resolver, and the result is cached. The
    resolving mark is cleared on every exit. *)
Definition resolve_node (resolve : nat -> State -> Resolution)
    (t i : nat) (c : State) : Resolution :=
  match lookup_node t i c with
  | None => Some (Throw (UnknownToken t), c)
  | Some n =>
      match n_instance n with
      | Some _ => Some (Return tt, c)
      | None =>
          if n_resolving n then Some (Throw (CircularDependency t), c)
          else
            match resolve_deps resolve (n_deps n) (update_node t i (set_resolving true) c) with
            | None => None
            | Some (Throw e, c') =>
                Some (Throw e, update_node t i (set_resolving false) c')
            | Some (Return _, c') =>
                match InjectionContext.instantiate
                        (n_factory n (next_addr c')) (resolver c') (ctx c') with
                | (Return v, x) =>
                    Some (Return tt,
                          update_node t i (fun m => set_resolving false (set_instance v m))
                            (bump_addr (set_ctx x c')))
                | (Throw e, x) =>
                    Some (Throw e,
                          update_node t i (set_resolving false) (bump_addr (set_ctx x c')))
                end
            end
      end
  end.

(** Resolve the nodes with the given indices of token [t], in order. *)
Fixpoint resolve_members (resolve_one : nat -> State -> Resolution)
    (idxs : list nat) (c : State) : Resolution :=
  match idxs with
  | [] => Some (Return tt, c)
  | i :: rest =>
      match resolve_one i c with
      | None => None
      | Some (Throw e, c') => Some (Throw e, c')
      | Some (Return _, c') => resolve_members resolve_one rest c'
      end
  end.

(** Modelled from the spec: resolve token [t]: every node registered under it,
    in registration order. [fuel] bounds the depth of the walk. *)
Fixpoint resolve_token (fuel : nat) (t : nat) (c : State) : Resolution :=
  match fuel with
  | 0 => None
  | S fuel' =>
      match store c !! t with
      | None => Some (Throw (UnknownToken t), c)
      | Some e =>
          resolve_members (resolve_node (resolve_token fuel') t)
            (seq 0 (length (nodes_of e))) c
      end
  end.

Fixpoint resolve_tokens (fuel : nat) (ts : list nat) (c : State) : Resolution :=
  match ts with
  | [] => Some (Return tt, c)
  | t :: rest =>
      match resolve_token fuel t c with
      | None => None
      | Some (Throw e, c') => Some (Throw e, c')
      | Some (Return _, c') => resolve_tokens fuel rest c'
      end
  end.

(** The nodes of the store, each named by its token and its place in the
    token's list. *)
Definition node_ids (c : State) : gset (nat * nat) :=
  list_to_set
    (map_to_list (store c) ≫= fun te =>
       (fun i => (te.1, i)) <$> seq 0 (length (nodes_of te.2))).

(** The number of nodes in the store: no walk is deeper. *)
Definition node_count (c : State) : nat := size (node_ids c).

(** Modelled from the spec: [bootstrap()].  Scan every node, then resolve
    the tokens in order of registration, then seal the container. *)
Definition bootstrap (scanners : list Scanner) (c : State) : Resolution :=
  if bootstrapped c then Some (Throw AlreadyBootstrapped, c)
  else
    match scan_tokens scanners (order c) c with
    | (Throw e, c1) => Some (Throw e, c1)
    | (Return _, c1) =>
        match resolve_tokens (S (node_count c1)) (order c1) c1 with
        | None => None
        | Some (Throw e, c2) => Some (Throw e, c2)
        | Some (Return _, c2) => Some (Return tt, set_bootstrapped true c2)
        end
    end.

(** *** After bootstrap *)

(** Modelled from the spec: [get(token)] reads the cache of a bootstrapped
    container and marks the token's nodes used. *)
Definition get (tok : NodeBase) (c : State) : Outcome Value * State :=
  if negb (bootstrapped c) then (Throw NotBootstrapped, c)
  else
    match store c !! ref tok with
    | None => (Throw (UnknownToken (ref tok)), c)
    | Some e =>
        match entry_value e with
        | Some v => (Return v, mark_used (ref tok) c)
        | None => (Throw NotBootstrapped, c)
        end
    end.

(** What [produce] accepts. *)
Inductive Producible : Type :=
  | OfConstructor (k : Constructor)
  | OfFactory (f : Producer).

Definition producible (p : Producible) : Producer :=
  match p with
  | OfConstructor k => construct k
  | OfFactory f => f
  end.

(** The first requested token that is not optional and has no node. *)
Fixpoint first_unknown (c : State) (deps : list InjectionNode) : option nat :=
  match deps with
  | [] => None
  | d :: rest =>
      match store c !! node_token d with
      | None => if node_optional d then first_unknown c rest else Some (node_token d)
      | Some _ => first_unknown c rest
      end
  end.

Definition mark_all_used (deps : list InjectionNode) (c : State) : State :=
  foldl (fun acc d => mark_used (node_token d) acc) c deps.

(** Modelled from the spec: [produce(ctor-or-factory)].  The producer is
    scanned on the spot, its requests are checked against the container,
    and it is instantiated with the container's resolver; no node is
    registered and nothing is cached. *)
Definition produce (scanners : list Scanner) (p : Producible) (c : State)
    : Outcome Value * State :=
  if negb (bootstrapped c) then (Throw NotBootstrapped, c)
  else
    match InjectionContext.scan scanners
            (ArgFunction (producible p (next_addr c))) (ctx c) with
    | (Throw e, x) => (Throw e, set_ctx x c)
    | (Return deps, x) =>
        match first_unknown c deps with
        | Some t => (Throw (UnknownToken t), set_ctx x c)
        | None =>
            match InjectionContext.instantiate
                    (producible p (next_addr c)) (resolver c) x with
            | (r, x') => (r, mark_all_used deps (bump_addr (set_ctx x' c)))
            end
        end
    end.

End Container.

(** Modelled from the spec: the injector handle (utils/injector.ts is missing
    from the source tree, its tests are there): [get] and [produce] are the
    container's. *)
Module Injector.

Definition get := Container.get.

Definition produce := Container.produce.

End Injector.

(** ** Specification vocabulary for the injection context *)

(** [calls.add] of every member of [ns], in order. *)
Definition add_all (ns : list InjectionNode) (s : list InjectionNode) : list InjectionNode :=
  foldl (fun acc n => set_add n acc) s ns.

(** A scanner that returns normally, whatever the static fields hold. *)
Definition scanner_returns (factory : JsArg) (sc : Scanner) : Prop :=
  forall st, exists ns st', sc factory st = (Return ns, st').

(** A scanner that reports [ns] and leaves the static fields alone. *)
Definition scanner_reports (factory : JsArg) (sc : Scanner) (ns : list InjectionNode) : Prop :=
  forall st, sc factory st = (Return ns, st).

(** The session [open] leaves behind. *)
Definition session (inj : option InjectorFn) : Ctx :=
  {| contextOpen := true; calls := []; injector := inj |}.

(** Sample scanners and producers. *)
Definition dep_a : InjectionNode := {| node_token := 1; node_optional := false |}.
Definition dep_b : InjectionNode := {| node_token := 2; node_optional := true |}.
Definition dep_c : InjectionNode := {| node_token := 3; node_optional := false |}.

Definition reporting_scanner (ns : list InjectionNode) : Scanner :=
  fun _ => mret ns.

Definition failing_scanner : Scanner :=
  fun _ => throw (Thrown (VStr "scanner failure")).

(** Records [dep_a] and then throws, as a producer fed placeholders may. *)
Definition recording_producer : M Value :=
  InjectionContext.add_call dep_a ;;
  throw (Thrown (VStr "placeholder misuse")).

Definition sample_resolver : InjectorFn := fun t _ => Return (VNum (Z.of_nat t)).

(** An outer session as a producer sees it mid-run, and a producer that asks
    for [dep_a] and then instantiates something else before it returns. *)
Definition outer_session : Ctx :=
  {| contextOpen := true; calls := [dep_a]; injector := Some sample_resolver |}.

Definition inner_resolver : InjectorFn := fun _ _ => Return VNull.

Definition reentrant_producer : M Value :=
  InjectionContext.add_call dep_a ;;
  InjectionContext.instantiate (mret (VNum 7)) inner_resolver.

(** ** Specification vocabulary for the container *)

Module ContainerSpec.
Import TokenModel Extractor Container.

(** [v] is what producer [p] returned from some instantiation. *)
Definition produced_by (p : Producer) (v : Value) : Prop :=
  exists addr inj s, fst (InjectionContext.instantiate (p addr) inj s) = Return v.

(** A node keeps its token and producer, and stays resolved once it is. *)
Definition node_ext (n n' : TreeNode) : Prop :=
  n_token n' = n_token n /\ n_factory n' = n_factory n /\
  (is_Some (n_instance n) -> is_Some (n_instance n')).

Definition entry_ext (e e' : Entry) : Prop :=
  match e, e' with
  | Single n, Single n' => node_ext n n'
  | Multi ns, Multi ns' => Forall2 node_ext ns ns'
  | _, _ => False
  end.

(** The store keeps its tokens, and each entry its kind and its nodes in
    order. *)
Definition ext (c c' : State) : Prop :=
  forall t, option_Forall2 entry_ext (store c !! t) (store c' !! t).

(** A cached instance was produced by the node's own producer. *)
Definition node_ok (n : TreeNode) : Prop :=
  forall v, n_instance n = Some v -> produced_by (n_factory n) v.

Definition state_ok (c : State) : Prop :=
  forall t e, store c !! t = Some e -> Forall node_ok (nodes_of e).

Definition token_resolved (c : State) (t : nat) : Prop :=
  exists e, store c !! t = Some e /\ is_Some (entry_value e).

(** What a resolution step guarantees. *)
Definition resolve_sound (resolve : nat -> State -> Resolution) : Prop :=
  forall t c r c', resolve t c = Some (r, c') ->
    ext c c' /\ (state_ok c -> state_ok c') /\
    (r = Return tt -> token_resolved c' t).

(** Operations on a bootstrapped container. *)
Inductive Op : Type :=
  | OpGet (tok : NodeBase)
  | OpProduce (p : Producible)
  | OpProvide (rs : list Registration).

Definition run_op (scanners : list Scanner) (o : Op) (c : State) : State :=
  match o with
  | OpGet tok => snd (get tok c)
  | OpProduce p => snd (produce scanners p c)
  | OpProvide rs => snd (Container.provide rs c)
  end.

Definition run_ops (scanners : list Scanner) (ops : list Op) (c : State) : State :=
  foldl (fun acc o => run_op scanners o acc) c ops.






(** The [i]-th node of token [t] is being resolved. *)
Definition resolving_at (c : State) (t i : nat) : Prop :=
  exists n, lookup_node t i c = Some n /\ n_resolving n = true.

Definition keeps_resolving (c c' : State) : Prop :=
  forall t i, resolving_at c t i -> resolving_at c' t i.

(** [ids] holds every node that could still be entered: unresolved and not
    on the walk's stack. *)
Definition free_in (c : State) (ids : gset (nat * nat)) : Prop :=
  forall t i n, lookup_node t i c = Some n ->
    n_resolving n = false -> n_instance n = None -> (t, i) ∈ ids.





End ContainerSpec.

(** ** A sample application *)

Module Sample.
Import TokenModel Extractor Container.

Definition CONFIG : NodeBase := NodeToken 11 "CONFIG" None.
Definition PLUGINS : NodeBase := MultiNodeToken 10 "PLUGINS" None.

Definition DependencyService : Constructor :=
  NodeInjectable 20
    {| ctor_name := "DependencyService"; ctor_fields := []; ctor_marker := None |}.

Definition MainService : Constructor :=
  NodeInjectable 21
    {| ctor_name := "MainService";
       ctor_fields := [ {| node_token := 20; node_optional := false |};
                        {| node_token := 10; node_optional := false |} ];
       ctor_marker := None |}.

(** Never provided; produced at run time. *)
Definition RuntimeClass : Constructor :=
  NodeInjectable 22
    {| ctor_name := "RuntimeClass";
       ctor_fields := [ {| node_token := 20; node_optional := false |} ];
       ctor_marker := None |}.

(** Two classes that request each other, and two that request a token
    nobody provides, the second optionally. *)
Definition ServiceA : Constructor :=
  NodeInjectable 31
    {| ctor_name := "ServiceA";
       ctor_fields := [ {| node_token := 32; node_optional := false |} ];
       ctor_marker := None |}.

Definition ServiceB : Constructor :=
  NodeInjectable 32
    {| ctor_name := "ServiceB";
       ctor_fields := [ {| node_token := 31; node_optional := false |} ];
       ctor_marker := None |}.

Definition NeedsMissing : Constructor :=
  NodeInjectable 33
    {| ctor_name := "NeedsMissing";
       ctor_fields := [ {| node_token := 99; node_optional := false |} ];
       ctor_marker := None |}.

Definition WantsMissing : Constructor :=
  NodeInjectable 34
    {| ctor_name := "WantsMissing";
       ctor_fields := [ {| node_token := 99; node_optional := true |} ];
       ctor_marker := None |}.

Definition token_of_class (k : Constructor) : NodeBase :=
  match ctor_marker k with
  | Some tok => tok
  | None => NodeToken 0 "" None
  end.

(** [MainService] is registered first and resolved last. *)
Definition registrations : list Registration :=
  [ BareConstructor MainService;
    Explicit (value_provider PLUGINS (VStr "value-1"));
    BareConstructor DependencyService;
    Explicit (value_provider PLUGINS (VStr "value-2"));
    Explicit (value_provider CONFIG (VNum 3)) ].

Definition provided : State := snd (provide registrations Container.empty).

Definition booted : State :=
  match bootstrap [] provided with
  | Some (_, c) => c
  | None => provided
  end.

End Sample.

(** ** The performance middleware (plugins/middlewares) *)

Module Middleware.
Import TokenModel.

(** A line on the console.  The line of the performance middleware,
    [Instantiated ${name} in ${(end - start).toFixed(2)} ms], is kept as its
    parts: the token's name and which two readings of the clock it
    subtracts. *)
Inductive LogLine : Type :=
  | Instantiated (name : string) (start finish : nat)
  | Printed (text : string).

(** What a middleware can reach: the injection context, the console, and the
    clock, of which only the number of readings taken so far matters. *)
Record World : Type := {
  w_ctx : Ctx;
  console : list LogLine;
  clock_reads : nat
}.

Definition MW (A : Type) : Type := World -> Outcome A * World.

Global Instance MW_ret : MRet MW := fun A a w => (Return a, w).

Global Instance MW_bind : MBind MW := fun A B k m w =>
  match m w with
  | (Return a, w') => k a w'
  | (Throw e, w') => (Throw e, w')
  end.

(** A computation over the injection context, run where a middleware runs. *)
Definition lift {A} (m : M A) : MW A := fun w =>
  match m (w_ctx w) with
  | (r, c) => (r, {| w_ctx := c; console := console w; clock_reads := clock_reads w |})
  end.

(** [iInstantiationParams]: [deps] is a [Set], kept as its member list. *)
Record iInstantiationParams : Type := {
  token : NodeBase;
  factory : M Value;
  deps : list TokenRef
}.

(** [iMiddleware = (params, next) => T]. *)
Definition iMiddleware : Type :=
  iInstantiationParams -> (iInstantiationParams -> MW Value) -> MW Value.

(** [performance.now()]: the reading is named by its number. *)
Definition performance_now : MW nat := fun w =>
  (Return (clock_reads w),
   {| w_ctx := w_ctx w; console := console w; clock_reads := S (clock_reads w) |}).

(** [console.log(line)]. *)
Definition console_log (line : LogLine) : MW unit := fun w =>
  (Return tt,
   {| w_ctx := w_ctx w; console := console w ++ [line]; clock_reads := clock_reads w |}).

Definition performanceDiagnostics : iMiddleware := fun params next =>
  if Nat.eqb (length (deps params)) 0 then next params
  else
    start ← performance_now;
    instance ← next params;
    finish ← performance_now;
    console_log (Instantiated (name (token params)) start finish) ;;
    mret instance.

(** A middleware applied [k] times, each application the [next] of the one
    before, around the rest of the chain. *)
Fixpoint stacked (k : nat) (mw : iMiddleware)
    (rest : iInstantiationParams -> MW Value) : iInstantiationParams -> MW Value :=
  match k with
  | 0 => rest
  | S k' => fun params => mw params (stacked k' mw rest)
  end.

(** The world after [k] more readings of the clock. *)
Definition after_reads (k : nat) (w : World) : World :=
  {| w_ctx := w_ctx w; console := console w; clock_reads := k + clock_reads w |}.

(** The lines [k] stacked middlewares print when the rest of the chain was
    entered at reading [entered] and left at reading [left]: the innermost
    prints first and measures the shortest span. *)
Definition stacked_lines (name : string) (k entered left : nat) : list LogLine :=
  (fun j => Instantiated name (entered - S j) (left + j)) <$> seq 0 k.

(** A world in which nothing has been printed and no clock read, and a chain
    that ends in instantiating the producer in the injection context. *)
Definition quiet (c : Ctx) : World :=
  {| w_ctx := c; console := []; clock_reads := 0 |}.

Definition instantiating (inj : InjectorFn) : iInstantiationParams -> MW Value :=
  fun params => lift (InjectionContext.instantiate (factory params) inj).

Definition service_params (ds : list TokenRef) : iInstantiationParams :=
  {| token := NodeToken 1 "Service" None;
     factory := mret (VNum 7);
     deps := ds |}.

End Middleware.

(** ** Calls of the diagnostics switch, in any order *)

Module DiagnosticsCalls.
Import Diagnostics.

Inductive Call : Type :=
  | Enable
  | Reset.

Global Instance Call_eq_dec : EqDecision Call.
Proof. solve_decision. Defined.

Definition run_call (c : Call) (s : PluginState) : PluginState :=
  match c with
  | Enable => enableIllumaDiagnostics s
  | Reset => __resetDiagnosticsState s
  end.

Definition run_calls (cs : list Call) (s : PluginState) : PluginState :=
  foldl (fun acc c => run_call c acc) s cs.

(** One round: a reset, then [S n] calls of the switch. *)
Definition round (n : nat) (s : PluginState) : PluginState :=
  Nat.iter (S n) enableIllumaDiagnostics (__resetDiagnosticsState s).

End DiagnosticsCalls.

(** * Properties *)

(** ** Running the context operations *)

Lemma open_run (inj : option InjectorFn) (s : Ctx) :
  InjectionContext.open inj s = (Return tt, session inj).
Proof. destruct inj; reflexivity. Qed.

Lemma close_run (s : Ctx) :
  InjectionContext.close s = (Return tt, InjectionContext.initial).
Proof. reflexivity. Qed.

Lemma bind_run {A B} (m : M A) (k : A -> M B) (s : Ctx) :
  (m ≫= k) s =
  match m s with
  | (Return a, s') => k a s'
  | (Throw e, s') => (Throw e, s')
  end.
Proof. reflexivity. Qed.

Lemma for_of_add (ns : list InjectionNode) (s : Ctx) :
  for_of ns InjectionContext.add_call s
  = (Return tt, InjectionContext.set_calls (add_all ns (calls s)) s).
Proof.
  revert s. induction ns as [|n ns IH]; intros s.
  - destruct s; reflexivity.
  - cbn [for_of]. rewrite bind_run. unfold InjectionContext.add_call at 1.
    cbn [modify]. rewrite IH. destruct s; reflexivity.
Qed.

Lemma set_add_elem (x n : InjectionNode) (s : list InjectionNode) :
  n ∈ set_add x s <-> n = x \/ n ∈ s.
Proof.
  unfold set_add. case_decide as Hin.
  - split; [auto | intros [->|]; auto].
  - rewrite elem_of_app, list_elem_of_singleton. tauto.
Qed.

Lemma set_add_NoDup (x : InjectionNode) (s : list InjectionNode) :
  NoDup s -> NoDup (set_add x s).
Proof.
  unfold set_add. intros Hs. case_decide as Hin; [done|].
  apply NoDup_app. split_and!; [done | | apply NoDup_singleton].
  intros y Hy ->%list_elem_of_singleton. done.
Qed.

Lemma add_all_elem (ns s : list InjectionNode) (n : InjectionNode) :
  n ∈ add_all ns s <-> n ∈ s \/ n ∈ ns.
Proof.
  unfold add_all. revert s. induction ns as [|x ns IH]; intros s; cbn [foldl].
  - rewrite elem_of_nil. tauto.
  - rewrite IH, set_add_elem, elem_of_cons. tauto.
Qed.

Lemma add_all_NoDup (ns s : list InjectionNode) :
  NoDup s -> NoDup (add_all ns s).
Proof.
  unfold add_all. revert s. induction ns as [|x ns IH]; intros s Hs; cbn [foldl].
  - done.
  - by apply IH, set_add_NoDup.
Qed.

Lemma elem_of_concat (nss : list (list InjectionNode)) (n : InjectionNode) :
  n ∈ concat nss <-> exists ns, ns ∈ nss /\ n ∈ ns.
Proof.
  induction nss as [|ns nss IH]; cbn [concat].
  - split; [intros []%elem_of_nil | intros (? & []%elem_of_nil & _)].
  - rewrite elem_of_app, IH. split.
    + intros [H|(ms & Hms & Hn)].
      * exists ns. split; [apply elem_of_cons; by left | done].
      * exists ms. split; [apply elem_of_cons; by right | done].
    + intros (ms & [->|Hms]%elem_of_cons & Hn); [by left | right; eauto].
Qed.

Lemma add_all_app (ns ms s : list InjectionNode) :
  add_all (ns ++ ms) s = add_all ms (add_all ns s).
Proof. unfold add_all. apply foldl_app. Qed.

(** What the session looks like when the scanner loop starts: the producer
    has run in a fresh scan-only session and its outcome has been dropped. *)
Lemma scan_unfold (scanners : list Scanner) (factory : JsArg) (s : Ctx) :
  typeof factory = "function" ->
  InjectionContext.scan scanners factory s =
  match for_of scanners (fun scanner =>
          scanned ← scanner factory;
          for_of scanned InjectionContext.add_call)
        (snd (call factory (session None))) with
  | (Return _, s') => (Return (calls s'), InjectionContext.initial)
  | (Throw e, s') => (Throw e, s')
  end.
Proof.
  intros Hfun. unfold InjectionContext.scan. rewrite Hfun.
  change (negb (String.eqb "function" "function")) with false. cbv iota.
  rewrite !bind_run, open_run.
  rewrite bind_run. unfold try_catch at 1. rewrite bind_run.
  destruct (call factory (session None)) as [[v|e] s1]; cbn [snd mret M_ret];
    rewrite bind_run;
    match goal with
    | |- context [for_of scanners ?b s1] =>
        destruct (for_of scanners b s1) as [[[]|e'] s2]
    end;
    reflexivity.
Qed.

Lemma scanners_loop_reports (factory : JsArg) (scanners : list Scanner)
    (reports : list (list InjectionNode)) (s : Ctx) :
  Forall2 (scanner_reports factory) scanners reports ->
  for_of scanners (fun scanner =>
    scanned ← scanner factory;
    for_of scanned InjectionContext.add_call) s
  = (Return tt, InjectionContext.set_calls (add_all (concat reports) (calls s)) s).
Proof.
  intros H. revert s. induction H as [|sc ns scs nss Hsc _ IH]; intros s.
  - destruct s; reflexivity.
  - cbn [for_of concat]. rewrite !bind_run, Hsc, for_of_add, IH.
    rewrite add_all_app. destruct s; reflexivity.
Qed.

Lemma scanners_loop_returns (factory : JsArg) (scanners : list Scanner) (s : Ctx) :
  Forall (scanner_returns factory) scanners ->
  exists s', for_of scanners (fun scanner =>
    scanned ← scanner factory;
    for_of scanned InjectionContext.add_call) s
  = (Return tt, s').
Proof.
  intros H. revert s. induction H as [|sc scs Hsc _ IH]; intros s.
  - eexists. reflexivity.
  - cbn [for_of]. destruct (Hsc s) as (ns & s1 & Hrun).
    rewrite !bind_run, Hrun, for_of_add. apply IH.
Qed.

Example getCalls_outside_a_session :
  InjectionContext.getCalls InjectionContext.initial
  = (Throw CalledOutsideContext, InjectionContext.initial).
Proof. reflexivity. Qed.

Example getCalls_in_a_session :
  fst (InjectionContext.getCalls
         {| contextOpen := true; calls := [dep_a; dep_b]; injector := None |})
  = Return [dep_a; dep_b].
Proof. reflexivity. Qed.

Example toString_tokens :
  TokenModel.toString (TokenModel.NodeToken 1 "Logger" None) = "NodeToken[Logger]" /\
  TokenModel.toString (TokenModel.MultiNodeToken 2 "Plugins" None) = "MultiNodeToken[Plugins]" /\
  TokenModel.isNodeBase (TokenModel.MultiNodeToken 2 "Plugins" None) = true.
Proof. repeat split. Qed.

(** ** The injection context: sessions *)

Lemma instantiate_run {T : Type} (factory : M T) (inj : InjectorFn) (s : Ctx) :
  InjectionContext.instantiate factory inj s
  = (fst (factory (session (Some inj))), InjectionContext.initial).
Proof.
  unfold InjectionContext.instantiate. rewrite bind_run, open_run.
  unfold try_finally.
  destruct (factory _) as [r s']. rewrite close_run. reflexivity.
Qed.

(** C3. [instantiate] opens a session with the resolver installed (the first
    equation is the session the factory runs in), runs the factory there and
    returns exactly the factory's outcome, a value or the thrown error; on
    both exits the session is closed afterwards: flag false, no recorded
    calls, no resolver. *)
Theorem instantiate_returns_factory_result_and_closes {T : Type}
    (factory : M T) (inj : InjectorFn) (s : Ctx) :
  InjectionContext.open (Some inj) s
    = (Return tt, {| contextOpen := true; calls := []; injector := Some inj |}) /\
  InjectionContext.instantiate factory inj s
    = (fst (factory {| contextOpen := true; calls := []; injector := Some inj |}),
       {| contextOpen := false; calls := []; injector := None |}).
Proof.
  split; [apply open_run | apply instantiate_run].
Qed.

(** C9. An argument that is not a function makes [scan] return the empty set
    with the static fields exactly as they were: no session is opened, the
    call set and the resolver are untouched, and since this holds for every
    list of scanners, also for those that throw or write to the context, none
    of them is invoked. *)
Theorem scan_non_function_changes_nothing
    (scanners : list Scanner) (factory : JsArg) (s : Ctx) :
  typeof factory <> "function" ->
  InjectionContext.scan scanners factory s = (Return [], s).
Proof.
  intros Hty. unfold InjectionContext.scan.
  destruct (String.eqb (typeof factory) "function") eqn:E.
  - apply String.eqb_eq in E. contradiction.
  - reflexivity.
Qed.

Lemma scan_non_function_changes_nothing_witness :
  typeof (ArgValue (VNum 42)) <> "function" /\
  InjectionContext.scan [failing_scanner; reporting_scanner [dep_b]]
    (ArgValue (VNum 42))
    {| contextOpen := true; calls := [dep_a]; injector := Some sample_resolver |}
  = (Return [],
     {| contextOpen := true; calls := [dep_a]; injector := Some sample_resolver |}).
Proof.
  split.
  - discriminate.
  - apply scan_non_function_changes_nothing. discriminate.
Defined.



(** ** The injection context: scanner errors *)

(** C1, as the specification words it, fails: a throwing scanner aborts the
    scan.  With one scanner reporting [dep_b], then one that throws, then one
    reporting [dep_c], [scan] hands the scanner's error to its caller; no token
    set is returned and the flag is still up. *)
Lemma scan_scanner_error_aborts_scan :
  InjectionContext.scan
    [reporting_scanner [dep_b]; failing_scanner; reporting_scanner [dep_c]]
    (ArgFunction recording_producer) InjectionContext.initial
  = (Throw (Thrown (VStr "scanner failure")),
     {| contextOpen := true; calls := [dep_a; dep_b]; injector := None |}).
Proof. reflexivity. Qed.

(** C1, amended. [scan] swallows the producer's exceptions only.  When the
    scanners registered before it return, an error thrown by a scanner is the
    outcome of [scan], whatever the producer did and whatever scanners are
    registered after it: those are not reached. *)
Theorem scan_propagates_scanner_error
    (before after : list Scanner) (failing : Scanner)
    (factory : JsArg) (e : Err) (s : Ctx) :
  typeof factory = "function" ->
  Forall (scanner_returns factory) before ->
  (forall st, fst (failing factory st) = Throw e) ->
  fst (InjectionContext.scan (before ++ failing :: after) factory s) = Throw e.
Proof.
  intros Hfun Hbefore Hfail. rewrite scan_unfold by done.
  generalize (snd (call factory (session None))). intros s0.
  revert s0. induction Hbefore as [|sc scs Hsc _ IH]; intros s0.
  - cbn [app for_of]. rewrite !bind_run.
    specialize (Hfail s0). destruct (failing factory s0) as [[ns|e'] s1]; cbn in Hfail.
    + discriminate.
    + injection Hfail as ->. reflexivity.
  - cbn [app for_of]. destruct (Hsc s0) as (ns & s1 & Hrun).
    rewrite !bind_run, Hrun, for_of_add. apply IH.
Qed.

Lemma scan_propagates_scanner_error_witness :
  fst (InjectionContext.scan
         ([reporting_scanner [dep_b]] ++ failing_scanner :: [reporting_scanner [dep_c]])
         (ArgFunction recording_producer) InjectionContext.initial)
  = Throw (Thrown (VStr "scanner failure")).
Proof.
  apply scan_propagates_scanner_error.
  - reflexivity.
  - constructor; [|constructor]. intros st. eexists _, _. reflexivity.
  - intros st. reflexivity.
Defined.

(** ** The injection context: re-entrancy *)

(** C2, as the specification words it, fails.  A nested [instantiate] made
    while [outer_session] is open is not rejected, it returns its value, and
    it does not put the outer session back: the context is left closed, with
    the outer session's recorded call and resolver gone.  Seen from outside,
    [scan] of a producer that requests [dep_a] and then instantiates something
    reports no dependency at all. *)
Lemma nested_instantiate_discards_outer_session :
  contextOpen outer_session = true /\
  fst (InjectionContext.instantiate (mret (VNum 7)) inner_resolver outer_session)
    = Return (VNum 7) /\
  snd (InjectionContext.instantiate (mret (VNum 7)) inner_resolver outer_session)
    = {| contextOpen := false; calls := []; injector := None |} /\
  snd (InjectionContext.instantiate (mret (VNum 7)) inner_resolver outer_session)
    <> outer_session /\
  InjectionContext.scan [] (ArgFunction reentrant_producer) InjectionContext.initial
    = (Return [], InjectionContext.initial).
Proof.
  split_and!; try reflexivity.
  intros H. apply (f_equal contextOpen) in H. discriminate.
Qed.

(** C2, amended.  Sessions are one flat record, not a stack, and a nested
    call is never rejected: [open] succeeds in every state and overwrites the
    session in place, and when an inner [instantiate], or an inner [scan]
    whose scanners return, completes, the context is closed (flag false, no
    recorded calls, no resolver) whatever the outer session held. *)
Theorem nested_session_overwrites_and_closes
    (inner : M Value) (inj : InjectorFn) (reopen : option InjectorFn)
    (scanners : list Scanner) (outer : Ctx) :
  contextOpen outer = true ->
  Forall (scanner_returns (ArgFunction inner)) scanners ->
  InjectionContext.open reopen outer
    = (Return tt, {| contextOpen := true; calls := []; injector := reopen |}) /\
  snd (InjectionContext.instantiate inner inj outer)
    = {| contextOpen := false; calls := []; injector := None |} /\
  snd (InjectionContext.scan scanners (ArgFunction inner) outer)
    = {| contextOpen := false; calls := []; injector := None |}.
Proof.
  intros _ Hsc. split_and!.
  - apply open_run.
  - rewrite instantiate_run. reflexivity.
  - rewrite scan_unfold by done.
    destruct (scanners_loop_returns _ _ (snd (call (ArgFunction inner) (session None))) Hsc)
      as [s' ->].
    reflexivity.
Qed.

Lemma nested_session_overwrites_and_closes_witness :
  contextOpen outer_session = true /\
  snd (InjectionContext.instantiate recording_producer inner_resolver outer_session)
    = {| contextOpen := false; calls := []; injector := None |}.
Proof.
  split; [reflexivity|].
  apply (nested_session_overwrites_and_closes recording_producer inner_resolver None
           [reporting_scanner [dep_b]] outer_session).
  - reflexivity.
  - constructor; [|constructor]. intros st. eexists _, _. reflexivity.
Defined.

(** ** The diagnostics switch *)

Lemma enableIllumaDiagnostics_enabled (s : Diagnostics.PluginState) :
  Diagnostics.enabled (Diagnostics.enableIllumaDiagnostics s) = true.
Proof.
  unfold Diagnostics.enableIllumaDiagnostics.
  destruct (Diagnostics.enabled s) eqn:E; [exact E | reflexivity].
Qed.

Lemma enableIllumaDiagnostics_again (s : Diagnostics.PluginState) :
  Diagnostics.enableIllumaDiagnostics (Diagnostics.enableIllumaDiagnostics s)
  = Diagnostics.enableIllumaDiagnostics s.
Proof.
  unfold Diagnostics.enableIllumaDiagnostics at 1.
  rewrite enableIllumaDiagnostics_enabled. reflexivity.
Qed.

Lemma enableIllumaDiagnostics_iter (n : nat) (s : Diagnostics.PluginState) :
  Nat.iter (S n) Diagnostics.enableIllumaDiagnostics s
  = Diagnostics.enableIllumaDiagnostics s.
Proof.
  induction n as [|n IH]; [reflexivity|].
  change (Nat.iter (S (S n)) Diagnostics.enableIllumaDiagnostics s)
    with (Diagnostics.enableIllumaDiagnostics
            (Nat.iter (S n) Diagnostics.enableIllumaDiagnostics s)).
  rewrite IH. apply enableIllumaDiagnostics_again.
Qed.

Lemma registered_snoc {A} `{EqDecision A} (x : A) (l : list A) :
  Diagnostics.registered x (l ++ [x]) = S (Diagnostics.registered x l).
Proof.
  unfold Diagnostics.registered. rewrite filter_app, length_app.
  rewrite filter_cons_True by done. cbn. lia.
Qed.

(** The guard is the flag alone: reset it, and the next call registers again. *)
Example enableIllumaDiagnostics_after_reset :
  Diagnostics.diagnostics
    (Diagnostics.enableIllumaDiagnostics
       (Diagnostics.__resetDiagnosticsState
          (Diagnostics.enableIllumaDiagnostics (Diagnostics.loaded [] []))))
  = [Diagnostics.DiagnosticsDefaultReporter; Diagnostics.DiagnosticsDefaultReporter].
Proof. reflexivity. Qed.

(** C10. From the freshly loaded module ([enabled] false), any number of calls
    of [enableIllumaDiagnostics], one or more, leaves the state the first call
    produced: the default reporter and the performance middleware have each
    been appended once to their registry, and a further call changes nothing. *)
Theorem enableIllumaDiagnostics_registers_once
    (ds : list Diagnostics.DiagnosticsModule) (ms : list Diagnostics.MiddlewareRef)
    (n : nat) :
  let after := Nat.iter (S n) Diagnostics.enableIllumaDiagnostics (Diagnostics.loaded ds ms) in
  Diagnostics.diagnostics after = ds ++ [Diagnostics.DiagnosticsDefaultReporter] /\
  Diagnostics.globalMiddlewares after = ms ++ [Diagnostics.performanceDiagnostics] /\
  Diagnostics.registered Diagnostics.DiagnosticsDefaultReporter (Diagnostics.diagnostics after)
    = S (Diagnostics.registered Diagnostics.DiagnosticsDefaultReporter ds) /\
  Diagnostics.registered Diagnostics.performanceDiagnostics (Diagnostics.globalMiddlewares after)
    = S (Diagnostics.registered Diagnostics.performanceDiagnostics ms) /\
  Diagnostics.enableIllumaDiagnostics after = after.
Proof.
  intros after. unfold after. rewrite enableIllumaDiagnostics_iter.
  split_and!; try reflexivity; apply registered_snoc.
Qed.

(** ** Provider normalisation *)

Import TokenModel Extractor Container ContainerSpec.

Lemma extractProvider_declared (r : Registration) (s : Ctx) :
  extractProvider r s =
  (match declared r with
   | Some x => Return x
   | None => Throw InvalidProvider
   end, s).
Proof.
  destruct r as [f|k|p]; cbn.
  - reflexivity.
  - destruct (ctor_marker k); reflexivity.
  - unfold variants.
    destruct (value p), (factory p), (useClass p), (alias p); reflexivity.
Qed.

(** C8.  [extractProvider] answers [InvalidProvider] exactly for the shapes
    that are not recognised (the first equation, with [declared] the one
    producer variant a recognised shape carries), in particular for a bare
    function that is no constructor and for an object with none of the four
    variants; for an accepted registration it hands back the producer itself
    and runs nothing: the state stays as it was, whatever the producer
    would do if invoked. *)
Theorem extractProvider_rejects_unrecognised_and_invokes_nothing
    (r : Registration) (f : Producer) (tok target : NodeBase) (v : Value)
    (k : Constructor) (s : Ctx) :
  extractProvider r s
    = (match declared r with
       | Some x => Return x
       | None => Throw InvalidProvider
       end, s) /\
  extractProvider (PlainFunction f) s = (Throw InvalidProvider, s) /\
  extractProvider (Explicit empty_provider) s = (Throw InvalidProvider, s) /\
  extractProvider (Explicit (factory_provider tok f)) s = (Return (ExProducer f), s) /\
  extractProvider (Explicit (value_provider tok v)) s
    = (Return (ExProducer (value_producer v)), s) /\
  extractProvider (Explicit (class_provider tok k)) s
    = (Return (ExProducer (construct k)), s) /\
  extractProvider (Explicit (alias_provider tok target)) s = (Return (ExAlias target), s).
Proof.
  split_and!; try reflexivity. apply extractProvider_declared.
Qed.

(** The producers the extractor's tests call. *)
Example extracted_value_producer (addr : nat) (s : Ctx) :
  value_producer (VStr "test") addr s = (Return (VStr "test"), s).
Proof. reflexivity. Qed.

Example extracted_class_producer (s : Ctx) :
  construct {| ctor_name := "TestClass"; ctor_fields := []; ctor_marker := None |} 7 s
  = (Return (VObj 7 "TestClass" []), s).
Proof. reflexivity. Qed.


(** ** Registration *)











(** ** The container: what resolution preserves *)


Lemma node_ext_refl (n : TreeNode) : node_ext n n.
Proof. repeat split; auto. Qed.

Lemma node_ext_trans (n1 n2 n3 : TreeNode) :
  node_ext n1 n2 -> node_ext n2 n3 -> node_ext n1 n3.
Proof.
  intros (Ht & Hf & Hi) (Ht' & Hf' & Hi'). repeat split; [congruence | congruence | auto].
Qed.

Lemma entry_ext_refl (e : Entry) : entry_ext e e.
Proof.
  destruct e as [n|ns]; cbn.
  - apply node_ext_refl.
  - apply Forall_Forall2_diag, Forall_forall. intros; apply node_ext_refl.
Qed.

Lemma entry_ext_trans (e1 e2 e3 : Entry) :
  entry_ext e1 e2 -> entry_ext e2 e3 -> entry_ext e1 e3.
Proof.
  destruct e1, e2, e3; cbn; try tauto.
  - apply node_ext_trans.
  - apply Forall2_trans. apply node_ext_trans.
Qed.

Lemma ext_refl (c : State) : ext c c.
Proof.
  intros t. destruct (store c !! t); constructor. apply entry_ext_refl.
Qed.

Lemma ext_trans (c1 c2 c3 : State) : ext c1 c2 -> ext c2 c3 -> ext c1 c3.
Proof.
  intros H12 H23 t. specialize (H12 t). specialize (H23 t).
  destruct H12 as [e1 e2 He|]; inversion H23; subst; constructor.
  eapply entry_ext_trans; eauto.
Qed.

Lemma entry_ext_nodes (e e' : Entry) :
  entry_ext e e' -> Forall2 node_ext (nodes_of e) (nodes_of e').
Proof.
  destruct e, e'; cbn; try tauto. intros H. by constructor.
Qed.

(** An update that changes no token and no producer and forgets no instance
    extends the store. *)
Lemma alter_entry_ext (f : TreeNode -> TreeNode) (i : nat) (e : Entry) :
  (forall n, node_ext n (f n)) -> entry_ext e (alter_entry f i e).
Proof.
  intros Hf. destruct e as [n|ns]; cbn.
  - destruct i; [apply Hf | apply node_ext_refl].
  - apply Forall2_alter_r.
    + apply Forall_Forall2_diag, Forall_forall. intros; apply node_ext_refl.
    + intros x y Hx Hy _. assert (x = y) as -> by congruence. apply Hf.
Qed.

Lemma map_entry_ext (f : TreeNode -> TreeNode) (e : Entry) :
  (forall n, node_ext n (f n)) -> entry_ext e (map_entry f e).
Proof.
  intros Hf. destruct e as [n|ns]; cbn; [apply Hf|].
  apply Forall2_fmap_r, Forall_Forall2_diag, Forall_forall. intros; apply Hf.
Qed.

Lemma alter_store_ext (g : Entry -> Entry) (t : nat) (c : State) :
  (forall e, entry_ext e (g e)) -> ext c (set_store (alter g t (store c)) c).
Proof.
  intros Hg t'. cbn. rewrite lookup_alter. case_decide as Heq.
  - subst. destruct (store c !! t'); constructor. apply Hg.
  - destruct (store c !! t'); constructor. apply entry_ext_refl.
Qed.

Lemma update_node_ext (t i : nat) (f : TreeNode -> TreeNode) (c : State) :
  (forall n, node_ext n (f n)) -> ext c (update_node t i f c).
Proof. intros Hf. apply alter_store_ext. intros e. by apply alter_entry_ext. Qed.

Lemma mark_used_ext (t : nat) (c : State) : ext c (mark_used t c).
Proof.
  apply alter_store_ext. intros e. apply map_entry_ext.
  intros n. repeat split; auto.
Qed.

Lemma set_resolving_ext (b : bool) (n : TreeNode) : node_ext n (set_resolving b n).
Proof. repeat split; auto. Qed.

Lemma set_instance_ext (b : bool) (v : Value) (n : TreeNode) :
  node_ext n (set_resolving b (set_instance v n)).
Proof. repeat split; cbn; eauto. Qed.

Lemma ext_set_ctx (x : Ctx) (c c' : State) : ext c c' -> ext c (set_ctx x c').
Proof. intros H t. apply H. Qed.

Lemma ext_bump_addr (c c' : State) : ext c c' -> ext c (bump_addr c').
Proof. intros H t. apply H. Qed.

(** The same for the invariant on cached instances. *)
Lemma alter_store_ok (g : Entry -> Entry) (t : nat) (c : State) :
  (forall e, store c !! t = Some e -> Forall node_ok (nodes_of e) ->
             Forall node_ok (nodes_of (g e))) ->
  state_ok c -> state_ok (set_store (alter g t (store c)) c).
Proof.
  intros Hg Hok t' e'. cbn. rewrite lookup_alter. case_decide as Heq.
  - subst. destruct (store c !! t') as [e|] eqn:E; cbn; [|done].
    intros [= <-]. apply Hg; [done|]. by eapply Hok.
  - apply Hok.
Qed.

Lemma nodes_of_alter_entry (f : TreeNode -> TreeNode) (i : nat) (e : Entry) :
  nodes_of (alter_entry f i e) = alter f i (nodes_of e).
Proof. destruct e as [n|ns]; [destruct i|]; reflexivity. Qed.

Lemma nodes_of_map_entry (f : TreeNode -> TreeNode) (e : Entry) :
  nodes_of (map_entry f e) = f <$> nodes_of e.
Proof. destruct e; reflexivity. Qed.

Lemma update_node_ok (t i : nat) (f : TreeNode -> TreeNode) (c : State) :
  (forall n, lookup_node t i c = Some n -> node_ok n -> node_ok (f n)) ->
  state_ok c -> state_ok (update_node t i f c).
Proof.
  intros Hf. apply alter_store_ok. intros e He Hok.
  rewrite nodes_of_alter_entry. apply Forall_alter; [done|].
  intros n Hn. apply Hf. unfold lookup_node. rewrite He. exact Hn.
Qed.

Lemma mark_used_ok (t : nat) (c : State) : state_ok c -> state_ok (mark_used t c).
Proof.
  apply alter_store_ok. intros e _ Hok. rewrite nodes_of_map_entry.
  apply Forall_fmap. eapply Forall_impl; [exact Hok|]. intros n Hn. exact Hn.
Qed.

Lemma lookup_update_node (t i : nat) (f : TreeNode -> TreeNode) (c : State) :
  lookup_node t i (update_node t i f c) = f <$> lookup_node t i c.
Proof.
  unfold lookup_node, update_node. cbn. rewrite lookup_alter_eq.
  destruct (store c !! t) as [e|]; cbn; [|done].
  rewrite nodes_of_alter_entry. apply list_lookup_alter_eq.
Qed.

(** Along an extension a node is still there, with the same token and
    producer, and resolved if it was. *)
Lemma ext_lookup_node (c c' : State) (t i : nat) (n : TreeNode) :
  ext c c' -> lookup_node t i c = Some n ->
  exists n', lookup_node t i c' = Some n' /\ node_ext n n'.
Proof.
  intros H. unfold lookup_node. specialize (H t).
  destruct H as [e e' He|]; cbn; [|done].
  intros Hn. apply entry_ext_nodes in He.
  destruct (Forall2_lookup_l _ _ _ _ _ He Hn) as (n' & Hn' & Hext). eauto.
Qed.

Lemma resolve_deps_sound (resolve : nat -> State -> Resolution)
    (deps : list InjectionNode) (c c' : State) (r : Outcome unit) :
  resolve_sound resolve ->
  resolve_deps resolve deps c = Some (r, c') ->
  ext c c' /\ (state_ok c -> state_ok c').
Proof.
  intros Hres. revert c. induction deps as [|d deps IH]; intros c; cbn [resolve_deps].
  - intros [= <- <-]. split; [apply ext_refl | auto].
  - destruct (store c !! node_token d) as [e|] eqn:E.
    + destruct (resolve (node_token d) c) as [[[[]|err] c1]|] eqn:R; [| |done].
      * intros Hrest. destruct (Hres _ _ _ _ R) as (Hext & Hok & _).
        destruct (IH _ Hrest) as (Hext' & Hok').
        split.
        -- eapply ext_trans; [exact Hext|]. eapply ext_trans; [apply mark_used_ext | exact Hext'].
        -- intros H. apply Hok', mark_used_ok, Hok, H.
      * intros [= <- <-]. destruct (Hres _ _ _ _ R) as (Hext & Hok & _). auto.
    + destruct (node_optional d).
      * apply IH.
      * intros [= <- <-]. split; [apply ext_refl | auto].
Qed.

Lemma resolve_node_sound (resolve : nat -> State -> Resolution)
    (t i : nat) (c c' : State) (r : Outcome unit) :
  resolve_sound resolve ->
  resolve_node resolve t i c = Some (r, c') ->
  ext c c' /\ (state_ok c -> state_ok c') /\
  (r = Return tt ->
   exists n', lookup_node t i c' = Some n' /\ is_Some (n_instance n')).
Proof.
  intros Hres. unfold resolve_node.
  destruct (lookup_node t i c) as [n|] eqn:Hn.
  2:{ intros [= <- <-]. split_and!; [apply ext_refl | auto | discriminate]. }
  destruct (n_instance n) as [v|] eqn:Hv.
  { intros [= <- <-]. split_and!; [apply ext_refl | auto |].
    intros _. exists n. rewrite Hv. eauto. }
  destruct (n_resolving n).
  { intros [= <- <-]. split_and!; [apply ext_refl | auto | discriminate]. }
  destruct (resolve_deps resolve (n_deps n) (update_node t i (set_resolving true) c))
    as [[[[]|err] c1]|] eqn:D; [| |done].
  - destruct (resolve_deps_sound _ _ _ _ _ Hres D) as (Hext & Hok).
    assert (ext c c1) as Hext1.
    { eapply ext_trans; [|exact Hext]. apply update_node_ext, set_resolving_ext. }
    assert (state_ok c -> state_ok c1) as Hok1.
    { intros H. apply Hok, update_node_ok; [|done]. intros m _ Hm. exact Hm. }
    destruct (ext_lookup_node _ _ _ _ _ Hext1 Hn) as (n1 & Hn1 & _ & Hfac & _).
    destruct (InjectionContext.instantiate (n_factory n (next_addr c1)) (resolver c1) (ctx c1))
      as [[v|err] x] eqn:I.
    + intros [= <- <-]. split_and!.
      * eapply ext_trans; [exact Hext1|].
        eapply ext_trans; [|apply update_node_ext; intros m; apply set_instance_ext].
        apply ext_bump_addr, ext_set_ctx, ext_refl.
      * intros H. apply update_node_ok; [|apply Hok1, H].
        intros m Hm _ w. cbn. intros [= <-].
        change (lookup_node t i c1 = Some m) in Hm.
        assert (m = n1) as -> by congruence. rewrite Hfac.
        exists (next_addr c1), (resolver c1), (ctx c1). rewrite I. reflexivity.
      * intros _. rewrite lookup_update_node.
        change (lookup_node t i (bump_addr (set_ctx x c1))) with (lookup_node t i c1).
        rewrite Hn1. cbn. eauto.
    + intros [= <- <-]. split_and!; [| |discriminate].
      * eapply ext_trans; [exact Hext1|].
        eapply ext_trans; [|apply update_node_ext, set_resolving_ext].
        apply ext_bump_addr, ext_set_ctx, ext_refl.
      * intros H. apply update_node_ok; [|apply Hok1, H]. intros m _ Hm. exact Hm.
  - intros [= <- <-].
    destruct (resolve_deps_sound _ _ _ _ _ Hres D) as (Hext & Hok).
    split_and!; [| |discriminate].
    + eapply ext_trans; [apply update_node_ext, set_resolving_ext|].
      eapply ext_trans; [exact Hext|]. apply update_node_ext, set_resolving_ext.
    + intros H. apply update_node_ok; [intros m _ Hm; exact Hm|].
      apply Hok, update_node_ok; [|done]. intros m _ Hm. exact Hm.
Qed.

Lemma resolve_members_sound (resolve_one : nat -> State -> Resolution)
    (t : nat) (idxs : list nat) (c c' : State) (r : Outcome unit) :
  (forall i c r c', resolve_one i c = Some (r, c') ->
     ext c c' /\ (state_ok c -> state_ok c') /\
     (r = Return tt ->
      exists n', lookup_node t i c' = Some n' /\ is_Some (n_instance n'))) ->
  resolve_members resolve_one idxs c = Some (r, c') ->
  ext c c' /\ (state_ok c -> state_ok c') /\
  (r = Return tt ->
   forall i, i ∈ idxs ->
     exists n', lookup_node t i c' = Some n' /\ is_Some (n_instance n')).
Proof.
  intros Hone. revert c. induction idxs as [|i idxs IH]; intros c; cbn [resolve_members].
  - intros [= <- <-]. split_and!; [apply ext_refl | auto |].
    intros _ i []%elem_of_nil.
  - destruct (resolve_one i c) as [[[[]|err] c1]|] eqn:R; [| |done].
    + intros Hrest. destruct (Hone _ _ _ _ R) as (Hext & Hok & Hres).
      destruct (IH _ Hrest) as (Hext' & Hok' & Hres').
      split_and!; [by eapply ext_trans | auto |].
      intros -> j [->|Hj]%elem_of_cons; [|by apply Hres'].
      destruct (Hres eq_refl) as (n1 & Hn1 & Hsome).
      destruct (ext_lookup_node _ _ _ _ _ Hext' Hn1) as (n' & Hn' & _ & _ & Hi).
      eauto.
    + intros [= <- <-]. destruct (Hone _ _ _ _ R) as (Hext & Hok & _).
      split_and!; [done | done | discriminate].
Qed.

(** Every node of an entry resolved means the entry has its value. *)
Lemma entry_value_is_Some (e : Entry) :
  Forall (fun n => is_Some (n_instance n)) (nodes_of e) -> is_Some (entry_value e).
Proof.
  destruct e as [n|ns]; cbn.
  - intros H. by inversion H.
  - intros H. apply fmap_is_Some, mapM_is_Some. exact H.
Qed.

Lemma resolve_token_sound (fuel : nat) : resolve_sound (resolve_token fuel).
Proof.
  induction fuel as [|fuel IH]; intros t c r c'; cbn [resolve_token]; [done|].
  destruct (store c !! t) as [e|] eqn:E.
  2:{ intros [= <- <-]. split_and!; [apply ext_refl | auto | discriminate]. }
  intros Hm.
  destruct (resolve_members_sound _ t _ _ _ _
              (fun i c r c' => resolve_node_sound _ t i c c' r IH) Hm)
    as (Hext & Hok & Hres).
  split_and!; [done | done |].
  intros ->. specialize (Hres eq_refl).
  pose proof (Hext t) as Ht. rewrite E in Ht. inversion Ht as [? e' He Heq1 Heq2|]; subst.
  exists e'. split; [done|]. apply entry_value_is_Some, Forall_lookup.
  intros i n' Hn'.
  assert (i < length (nodes_of e)) as Hlt.
  { rewrite (Forall2_length _ _ _ (entry_ext_nodes _ _ He)). by eapply lookup_lt_Some. }
  destruct (Hres i) as (m & Hm' & Hsome).
  { apply elem_of_seq. lia. }
  unfold lookup_node in Hm'. rewrite <- Heq2 in Hm'. cbn in Hm'. congruence.
Qed.



(** ** The container: the scan phase and bootstrap *)










(** ** Bootstrap always ends *)

Lemma lookup_update_node_ne (t i t' i' : nat) (f : TreeNode -> TreeNode) (c : State) :
  (t', i') <> (t, i) ->
  lookup_node t' i' (update_node t i f c) = lookup_node t' i' c.
Proof.
  intros Hne. unfold lookup_node, update_node. cbn. rewrite lookup_alter.
  case_decide as Heq; [|done]. subst t'.
  destruct (store c !! t) as [e|]; cbn; [|done].
  rewrite nodes_of_alter_entry. apply list_lookup_alter_ne. congruence.
Qed.

Lemma lookup_mark_used (t t' i' : nat) (c : State) :
  lookup_node t' i' (mark_used t c)
  = if decide (t = t') then set_used <$> lookup_node t' i' c else lookup_node t' i' c.
Proof.
  unfold lookup_node, mark_used. cbn. rewrite lookup_alter.
  case_decide as Heq; [|done]. subst t'.
  destruct (store c !! t) as [e|]; cbn; [|done].
  rewrite nodes_of_map_entry. apply list_lookup_fmap.
Qed.

Lemma keeps_resolving_refl (c : State) : keeps_resolving c c.
Proof. by intros t i H. Qed.

Lemma keeps_resolving_trans (c1 c2 c3 : State) :
  keeps_resolving c1 c2 -> keeps_resolving c2 c3 -> keeps_resolving c1 c3.
Proof. intros H12 H23 t i H. by apply H23, H12. Qed.

Lemma mark_used_keeps (t : nat) (c : State) : keeps_resolving c (mark_used t c).
Proof.
  intros t' i' (n & Hn & Hr). unfold resolving_at. rewrite lookup_mark_used.
  case_decide; [|eauto]. rewrite Hn. cbn. eauto.
Qed.

Lemma update_node_keeps_other (t i t' i' : nat) (f : TreeNode -> TreeNode) (c : State) :
  (t', i') <> (t, i) -> resolving_at c t' i' -> resolving_at (update_node t i f c) t' i'.
Proof. intros Hne H. unfold resolving_at. by rewrite lookup_update_node_ne. Qed.

Lemma resolve_deps_keeps (resolve : nat -> State -> Resolution)
    (deps : list InjectionNode) (c c' : State) (r : Outcome unit) :
  (forall t c r c', resolve t c = Some (r, c') -> keeps_resolving c c') ->
  resolve_deps resolve deps c = Some (r, c') -> keeps_resolving c c'.
Proof.
  intros Hres. revert c. induction deps as [|d deps IH]; intros c; cbn [resolve_deps].
  - intros [= <- <-]. apply keeps_resolving_refl.
  - destruct (store c !! node_token d).
    + destruct (resolve (node_token d) c) as [[[[]|err] c1]|] eqn:R; [| |done].
      * intros Hrest. eapply keeps_resolving_trans; [by eapply Hres|].
        eapply keeps_resolving_trans; [apply mark_used_keeps | by apply IH].
      * intros [= <- <-]. by eapply Hres.
    + destruct (node_optional d); [apply IH|].
      intros [= <- <-]. apply keeps_resolving_refl.
Qed.

Lemma resolve_node_keeps (resolve : nat -> State -> Resolution)
    (t i : nat) (c c' : State) (r : Outcome unit) :
  (forall t c r c', resolve t c = Some (r, c') -> keeps_resolving c c') ->
  resolve_node resolve t i c = Some (r, c') -> keeps_resolving c c'.
Proof.
  intros Hres. unfold resolve_node.
  destruct (lookup_node t i c) as [n|] eqn:Hn.
  2:{ intros [= <- <-]. apply keeps_resolving_refl. }
  destruct (n_instance n); [intros [= <- <-]; apply keeps_resolving_refl|].
  destruct (n_resolving n) eqn:Hr; [intros [= <- <-]; apply keeps_resolving_refl|].
  assert (forall t' i', resolving_at c t' i' -> (t', i') <> (t, i)) as Hother.
  { intros t' i' (m & Hm & Hmr) [= -> ->]. congruence. }
  destruct (resolve_deps resolve (n_deps n) (update_node t i (set_resolving true) c))
    as [[[[]|err] c1]|] eqn:D; [| |done].
  - pose proof (resolve_deps_keeps _ _ _ _ _ Hres D) as Hk.
    destruct (InjectionContext.instantiate _ _ _) as [[v|err] x];
      intros [= <- <-]; intros t' i' H;
      (apply update_node_keeps_other; [by apply Hother|]);
      apply (Hk t' i'); apply update_node_keeps_other; auto.
  - pose proof (resolve_deps_keeps _ _ _ _ _ Hres D) as Hk.
    intros [= <- <-]. intros t' i' H.
    apply update_node_keeps_other; [by apply Hother|].
    apply Hk, update_node_keeps_other; auto.
Qed.

Lemma resolve_members_keeps (resolve_one : nat -> State -> Resolution)
    (idxs : list nat) (c c' : State) (r : Outcome unit) :
  (forall i c r c', resolve_one i c = Some (r, c') -> keeps_resolving c c') ->
  resolve_members resolve_one idxs c = Some (r, c') -> keeps_resolving c c'.
Proof.
  intros Hone. revert c. induction idxs as [|i idxs IH]; intros c; cbn [resolve_members].
  - intros [= <- <-]. apply keeps_resolving_refl.
  - destruct (resolve_one i c) as [[[[]|err] c1]|] eqn:R; [| |done].
    + intros Hrest. eapply keeps_resolving_trans; [by eapply Hone | by apply IH].
    + intros [= <- <-]. by eapply Hone.
Qed.

Lemma resolve_token_keeps (fuel t : nat) (c c' : State) (r : Outcome unit) :
  resolve_token fuel t c = Some (r, c') -> keeps_resolving c c'.
Proof.
  revert t c r c'. induction fuel as [|fuel IH]; intros t c r c'; cbn [resolve_token]; [done|].
  destruct (store c !! t); [|intros [= <- <-]; apply keeps_resolving_refl].
  apply resolve_members_keeps. intros i c1 r1 c1'. by apply resolve_node_keeps.
Qed.

(** Along a successful step no node becomes enterable again. *)
Lemma free_in_mono (c c' : State) (ids : gset (nat * nat)) :
  ext c c' -> keeps_resolving c c' -> free_in c ids -> free_in c' ids.
Proof.
  intros Hext Hkeep Hfree t i n' Hn' Hr Hi.
  pose proof (Hext t) as Ht. unfold lookup_node in Hn'.
  destruct (store c !! t) as [e|] eqn:E, (store c' !! t) as [e'|] eqn:E';
    inversion Ht as [? ? He|]; subst; cbn in Hn'; [|done].
  apply entry_ext_nodes in He.
  destruct (Forall2_lookup_r _ _ _ _ _ He Hn') as (n & Hn & _ & _ & Hmono).
  assert (lookup_node t i c = Some n) as Hlook.
  { unfold lookup_node. by rewrite E. }
  apply (Hfree t i n Hlook).
  - destruct (n_resolving n) eqn:Hrn; [|done].
    destruct (Hkeep t i) as (m & Hm & Hmr); [by exists n|].
    unfold lookup_node in Hm. rewrite E' in Hm. cbn in Hm. congruence.
  - destruct (n_instance n) eqn:Hin; [|done].
    destruct Hmono as [w Hw]; [eauto|]. congruence.
Qed.

Lemma resolve_deps_total (resolve : nat -> State -> Resolution)
    (ids : gset (nat * nat)) (deps : list InjectionNode) (c : State) :
  (forall t c, free_in c ids -> exists r c', resolve t c = Some (r, c')) ->
  resolve_sound resolve ->
  (forall t c r c', resolve t c = Some (r, c') -> keeps_resolving c c') ->
  free_in c ids ->
  exists r c', resolve_deps resolve deps c = Some (r, c').
Proof.
  intros Htotal Hsound Hkeep. revert c.
  induction deps as [|d deps IH]; intros c Hfree; cbn [resolve_deps]; [eauto|].
  destruct (store c !! node_token d).
  - destruct (Htotal (node_token d) c Hfree) as ([[]|err] & c1 & R); rewrite R; [|eauto].
    apply IH.
    destruct (Hsound _ _ _ _ R) as (Hext & _).
    eapply (free_in_mono c); [| |exact Hfree].
    + eapply ext_trans; [exact Hext | apply mark_used_ext].
    + eapply keeps_resolving_trans; [by eapply Hkeep | apply mark_used_keeps].
  - destruct (node_optional d); [by apply IH | eauto].
Qed.

Lemma resolve_node_total (resolve : nat -> State -> Resolution)
    (fuel : nat) (ids : gset (nat * nat)) (t i : nat) (c : State) :
  (forall ids' t c, size ids' < fuel -> free_in c ids' ->
     exists r c', resolve t c = Some (r, c')) ->
  resolve_sound resolve ->
  (forall t c r c', resolve t c = Some (r, c') -> keeps_resolving c c') ->
  size ids < S fuel ->
  free_in c ids ->
  exists r c', resolve_node resolve t i c = Some (r, c').
Proof.
  intros Htotal Hsound Hkeep Hsize Hfree. unfold resolve_node.
  destruct (lookup_node t i c) as [n|] eqn:Hn; [|eauto].
  destruct (n_instance n) eqn:Hi; [eauto|].
  destruct (n_resolving n) eqn:Hr; [eauto|].
  assert ((t, i) ∈ ids) as Hin by (by eapply Hfree).
  destruct (resolve_deps_total resolve (ids ∖ {[(t, i)]}) (n_deps n)
              (update_node t i (set_resolving true) c))
    as ([[]|err] & c1 & D).
  - intros u c0. apply Htotal.
    assert (size ids = size (ids ∖ {[(t, i)]}) + 1) as Hs.
    { assert (ids = {[(t, i)]} ∪ ids ∖ {[(t, i)]}) as Heq.
      { apply set_eq. intros x.
        rewrite elem_of_union, elem_of_difference, elem_of_singleton.
        destruct (decide (x = (t, i))) as [->|]; tauto. }
      rewrite Heq at 1. rewrite size_union.
      - rewrite size_singleton. lia.
      - intros y Hy [_ Hny]%elem_of_difference. done. }
    lia.
  - exact Hsound.
  - exact Hkeep.
  - intros t' i' m Hm Hmr Hmi. apply elem_of_difference. split.
    + destruct (decide ((t', i') = (t, i))) as [[= -> ->]|Hne].
      * rewrite lookup_update_node, Hn in Hm. cbn in Hm. injection Hm as <-. done.
      * rewrite lookup_update_node_ne in Hm by done. by eapply Hfree.
    + intros [= -> ->]%elem_of_singleton.
      rewrite lookup_update_node, Hn in Hm. cbn in Hm. injection Hm as <-. done.
  - rewrite D. destruct (InjectionContext.instantiate _ _ _) as [[v|err] x]; eauto.
  - rewrite D. eauto.
Qed.

Lemma resolve_members_total (resolve_one : nat -> State -> Resolution)
    (ids : gset (nat * nat)) (idxs : list nat) (c : State) :
  (forall i c, free_in c ids -> exists r c', resolve_one i c = Some (r, c')) ->
  (forall i c r c', resolve_one i c = Some (r, c') -> ext c c' /\ keeps_resolving c c') ->
  free_in c ids ->
  exists r c', resolve_members resolve_one idxs c = Some (r, c').
Proof.
  intros Htotal Hstep. revert c.
  induction idxs as [|i idxs IH]; intros c Hfree; cbn [resolve_members]; [eauto|].
  destruct (Htotal i c Hfree) as ([[]|err] & c1 & R); rewrite R; [|eauto].
  apply IH. destruct (Hstep _ _ _ _ R) as [Hext Hkeep]. by eapply free_in_mono.
Qed.

(** A depth budget above the number of enterable nodes is never used up. *)
Lemma resolve_token_total (fuel : nat) (ids : gset (nat * nat)) (t : nat) (c : State) :
  size ids < fuel -> free_in c ids ->
  exists r c', resolve_token fuel t c = Some (r, c').
Proof.
  revert ids t c. induction fuel as [|fuel IH]; intros ids t c Hsize Hfree; [lia|].
  cbn [resolve_token]. destruct (store c !! t) as [e|]; [|eauto].
  apply (resolve_members_total _ ids); [| |done].
  - intros i c1 Hfree1.
    exact (resolve_node_total (resolve_token fuel) fuel ids t i c1
             (fun ids' t' c' Hs Hf => IH ids' t' c' Hs Hf)
             (resolve_token_sound fuel)
             (fun t' c' r' c'' => resolve_token_keeps fuel t' c' c'' r')
             Hsize Hfree1).
  - intros i c1 r1 c1' R. split.
    + by destruct (resolve_node_sound _ _ _ _ _ _ (resolve_token_sound fuel) R).
    + eapply resolve_node_keeps; [|exact R].
      intros t' c' r' c''. apply resolve_token_keeps.
Qed.

Lemma resolve_tokens_total (fuel : nat) (ids : gset (nat * nat)) (ts : list nat) (c : State) :
  size ids < fuel -> free_in c ids ->
  exists r c', resolve_tokens fuel ts c = Some (r, c').
Proof.
  intros Hsize. revert c. induction ts as [|t ts IH]; intros c Hfree; cbn [resolve_tokens];
    [eauto|].
  destruct (resolve_token_total fuel ids t c Hsize Hfree) as ([[]|err] & c1 & R);
    rewrite R; [|eauto].
  apply IH. eapply free_in_mono; [| |exact Hfree].
  - by destruct (resolve_token_sound _ _ _ _ _ R).
  - by eapply resolve_token_keeps.
Qed.

Lemma node_ids_lookup (c : State) (t i : nat) (n : TreeNode) :
  lookup_node t i c = Some n -> (t, i) ∈ node_ids c.
Proof.
  unfold lookup_node, node_ids. destruct (store c !! t) as [e|] eqn:E; cbn; [|done].
  intros Hn. apply elem_of_list_to_set, list_elem_of_bind.
  exists (t, e). split.
  - cbn. apply list_elem_of_fmap. exists i. split; [done|].
    apply elem_of_seq. apply lookup_lt_Some in Hn. lia.
  - by apply elem_of_map_to_list.
Qed.

(** The walk of [bootstrap] is bounded by the number of nodes, and that bound
    is enough: [bootstrap] always ends, with success or with an error. *)
Lemma bootstrap_total (scanners : list Scanner) (c : State) :
  exists r c', bootstrap scanners c = Some (r, c').
Proof.
  unfold bootstrap. destruct (bootstrapped c); [eauto|].
  destruct (scan_tokens scanners (order c) c) as [[[]|err] c1]; [|eauto].
  destruct (resolve_tokens_total (S (node_count c1)) (node_ids c1) (order c1) c1)
    as ([[]|err] & c2 & R).
  - unfold node_count. lia.
  - intros t i n Hn _ _. by eapply node_ids_lookup.
  - rewrite R. eauto.
  - rewrite R. eauto.
Qed.
(** ** The container after bootstrap *)














(** ** Single tokens *)





Example get_single_sample :
  fst (Injector.get Sample.CONFIG
         (run_ops []
            [OpGet Sample.CONFIG; OpProduce (OfConstructor Sample.RuntimeClass);
             OpProvide [Explicit (value_provider Sample.CONFIG (VNum 4))];
             OpGet Sample.PLUGINS]
            Sample.booted))
  = Return (VNum 3).
Proof. vm_compute. reflexivity. Qed.

(** ** Multi tokens *)



Example get_multi_sample :
  fst (Injector.get Sample.PLUGINS Sample.booted)
  = Return (VArr [VStr "value-1"; VStr "value-2"]).
Proof. vm_compute. reflexivity. Qed.

(** ** Producing fresh instances *)

















(** ** Fresh instances *)




(** The produce test of the injector: two runtime instances, each with the
    container's [DependencyService], and the class still unknown to [get]. *)
Example produce_twice_sample :
  fst (Injector.produce [] (OfConstructor Sample.RuntimeClass) Sample.booted)
    = Return (VObj 5 "RuntimeClass" [VObj 0 "DependencyService" []]) /\
  fst (Injector.produce [] (OfConstructor Sample.RuntimeClass)
         (snd (Injector.produce [] (OfConstructor Sample.RuntimeClass) Sample.booted)))
    = Return (VObj 6 "RuntimeClass" [VObj 0 "DependencyService" []]).
Proof. split; vm_compute; reflexivity. Qed.

(** Bootstrap resolves dependencies first: [MainService], registered first,
    is instantiated last. *)
Example bootstrap_sample :
  bootstrap [] Sample.provided = Some (Return tt, Sample.booted) /\
  fst (Injector.get (Sample.token_of_class Sample.MainService) Sample.booted)
    = Return (VObj 3 "MainService"
                [VObj 0 "DependencyService" []; VArr [VStr "value-1"; VStr "value-2"]]).
Proof. split; vm_compute; reflexivity. Qed.

(** The error cases of bootstrap: a cycle, a missing token, and a missing
    token that was requested optionally. *)
Example bootstrap_errors_sample :
  option_map fst
    (bootstrap [] (snd (provide [BareConstructor Sample.ServiceA;
                                 BareConstructor Sample.ServiceB] Container.empty)))
    = Some (Throw (CircularDependency 31)) /\
  option_map fst
    (bootstrap [] (snd (provide [BareConstructor Sample.NeedsMissing] Container.empty)))
    = Some (Throw (UnknownToken 99)) /\
  option_map fst
    (bootstrap [] (snd (provide [BareConstructor Sample.WantsMissing] Container.empty)))
    = Some (Return tt).
Proof. repeat split; vm_compute; reflexivity. Qed.

(** * Further properties of the code *)

(** ** The injection context: what a session starts from *)

(** X1.  A scan of a function and an instantiation start from nothing: both
    overwrite all three static fields before anything runs, so the outcome
    and the state they leave are the same whatever an earlier session, open
    or closed, had left behind. *)
Theorem session_ignores_previous_state
    (scanners : list Scanner) (factory : JsArg) (body : M Value)
    (inj : InjectorFn) (s s' : Ctx) :
  typeof factory = "function" ->
  InjectionContext.scan scanners factory s
    = InjectionContext.scan scanners factory s' /\
  InjectionContext.instantiate body inj s
    = InjectionContext.instantiate body inj s'.
Proof.
  intros Hfun. split.
  - rewrite !scan_unfold by done. reflexivity.
  - rewrite !instantiate_run. reflexivity.
Qed.

Lemma session_ignores_previous_state_witness :
  InjectionContext.scan [reporting_scanner [dep_b]; failing_scanner]
    (ArgFunction recording_producer) outer_session
  = InjectionContext.scan [reporting_scanner [dep_b]; failing_scanner]
    (ArgFunction recording_producer) InjectionContext.initial.
Proof.
  apply (session_ignores_previous_state _ (ArgFunction recording_producer)
           recording_producer sample_resolver outer_session InjectionContext.initial).
  reflexivity.
Defined.

(** ** The injection context: reading the recorded calls *)

Lemma getCalls_run (s : Ctx) :
  InjectionContext.getCalls s
  = (if contextOpen s then Return (calls s) else Throw CalledOutsideContext, s).
Proof.
  unfold InjectionContext.getCalls. rewrite bind_run. unfold gets at 1.
  destruct (contextOpen s); reflexivity.
Qed.


(** ** The injection context: scanners *)

(** X3.  [scan] has no [finally]: when a scanner throws, after the scanners
    before it have reported, the error leaves [scan] with the static fields
    as the loop had them, the producer's recorded calls and the earlier
    reports still in [calls] and nothing closed.  If the producer left the
    flag up, a later [getCalls] therefore does not throw but returns that
    stale set. *)
Theorem scan_scanner_error_leaves_session_open
    (before after : list Scanner) (reports : list (list InjectionNode))
    (failing : Scanner) (factory : JsArg) (e : Err) (s : Ctx) :
  typeof factory = "function" ->
  Forall2 (scanner_reports factory) before reports ->
  (forall st, failing factory st = (Throw e, st)) ->
  let ran := snd (call factory (session None)) in
  let left := InjectionContext.set_calls (add_all (concat reports) (calls ran)) ran in
  InjectionContext.scan (before ++ failing :: after) factory s = (Throw e, left) /\
  (contextOpen ran = true ->
   InjectionContext.getCalls left
     = (Return (add_all (concat reports) (calls ran)), left)).
Proof.
  intros Hfun Hbefore Hfail ran left. split.
  - rewrite scan_unfold by done. fold ran.
    assert (for_of (before ++ failing :: after) (fun scanner =>
              scanned ← scanner factory;
              for_of scanned InjectionContext.add_call) ran = (Throw e, left)) as ->;
      [|reflexivity].
    unfold left. clear left. generalize ran. clear ran.
    induction Hbefore as [|sc ns scs nss Hsc _ IH]; intros s0.
    + cbn [app for_of concat]. rewrite !bind_run, Hfail.
      destruct s0; reflexivity.
    + cbn [app for_of concat]. rewrite !bind_run, (Hsc s0), for_of_add, IH.
      rewrite add_all_app. reflexivity.
  - intros Hopen. rewrite getCalls_run. unfold left.
    cbn [contextOpen calls InjectionContext.set_calls].
    rewrite Hopen. reflexivity.
Qed.

Lemma scan_scanner_error_leaves_session_open_witness :
  InjectionContext.scan
    ([reporting_scanner [dep_b]] ++ failing_scanner :: [reporting_scanner [dep_c]])
    (ArgFunction recording_producer) InjectionContext.initial
  = (Throw (Thrown (VStr "scanner failure")),
     {| contextOpen := true; calls := [dep_a; dep_b]; injector := None |}).
Proof.
  apply (scan_scanner_error_leaves_session_open
           [reporting_scanner [dep_b]] [reporting_scanner [dep_c]] [[dep_b]]
           failing_scanner (ArgFunction recording_producer)).
  - reflexivity.
  - repeat constructor.
  - intros st. reflexivity.
Defined.

Lemma scanner_reports_functional (factory : JsArg) (sc : Scanner)
    (ns ms : list InjectionNode) :
  scanner_reports factory sc ns -> scanner_reports factory sc ms -> ns = ms.
Proof.
  intros H1 H2. specialize (H1 InjectionContext.initial).
  specialize (H2 InjectionContext.initial). congruence.
Qed.

Lemma reports_elem (factory : JsArg) (scanners : list Scanner)
    (reports : list (list InjectionNode)) (n : InjectionNode) :
  Forall2 (scanner_reports factory) scanners reports ->
  (exists ns, ns ∈ reports /\ n ∈ ns) <->
  (exists sc ns, sc ∈ scanners /\ scanner_reports factory sc ns /\ n ∈ ns).
Proof.
  intros H. split.
  - intros (ns & Hns & Hn).
    induction H as [|sc ms scs mss Hsc _ IH].
    + by apply elem_of_nil in Hns.
    + apply elem_of_cons in Hns as [->|Hns].
      * exists sc, ms. split_and!; [apply list_elem_of_here | done | done].
      * destruct (IH Hns) as (sc' & ns' & ? & ? & ?).
        exists sc', ns'. split_and!; [by apply list_elem_of_further | done | done].
  - intros (sc & ns & Hsc & Hrep & Hn).
    induction H as [|sc' ms scs mss Hsc' _ IH].
    + by apply elem_of_nil in Hsc.
    + apply elem_of_cons in Hsc as [->|Hsc].
      * exists ms. split; [apply list_elem_of_here|].
        by rewrite (scanner_reports_functional _ _ _ _ Hsc' Hrep).
      * destruct (IH Hsc) as (ns' & ? & ?).
        exists ns'. split; [by apply list_elem_of_further | done].
Qed.

(** X4.  The order in which scanners are registered decides the order of the
    returned set only, never its members: two registrations of the same
    scanners, each reporting its set and leaving the context alone, give
    scans that both return and close the session, with the same members;
    when the producer's recorded calls are duplicate-free, as a [Set] is,
    one result is a rearrangement of the other. *)
Theorem scan_members_do_not_depend_on_scanner_order
    (scanners scanners' : list Scanner) (reports reports' : list (list InjectionNode))
    (factory : JsArg) (s : Ctx) :
  typeof factory = "function" ->
  Forall2 (scanner_reports factory) scanners reports ->
  Forall2 (scanner_reports factory) scanners' reports' ->
  scanners ≡ₚ scanners' ->
  exists r r',
    InjectionContext.scan scanners factory s = (Return r, InjectionContext.initial) /\
    InjectionContext.scan scanners' factory s = (Return r', InjectionContext.initial) /\
    (forall n, n ∈ r <-> n ∈ r') /\
    (NoDup (calls (snd (call factory (session None)))) -> r ≡ₚ r').
Proof.
  intros Hfun H1 H2 Hperm.
  set (recorded := calls (snd (call factory (session None)))).
  exists (add_all (concat reports) recorded), (add_all (concat reports') recorded).
  assert (forall n, n ∈ add_all (concat reports) recorded
                    <-> n ∈ add_all (concat reports') recorded) as Hmem.
  { intros n. rewrite !add_all_elem, !elem_of_concat.
    rewrite (reports_elem _ _ _ n H1), (reports_elem _ _ _ n H2).
    split; (intros [?|(sc & ns & Hsc & ? & ?)]; [by left|right]);
      exists sc, ns; split_and!; try done.
    - by rewrite <- Hperm.
    - by rewrite Hperm. }
  split_and!.
  - rewrite scan_unfold by done.
    rewrite (scanners_loop_reports _ _ reports) by done. reflexivity.
  - rewrite scan_unfold by done.
    rewrite (scanners_loop_reports _ _ reports') by done. reflexivity.
  - exact Hmem.
  - intros Hnd. apply NoDup_Permutation; [by apply add_all_NoDup..|exact Hmem].
Qed.

Lemma scan_members_do_not_depend_on_scanner_order_witness :
  exists r r',
    InjectionContext.scan [reporting_scanner [dep_b; dep_a]; reporting_scanner [dep_c]]
      (ArgFunction recording_producer) InjectionContext.initial
      = (Return r, InjectionContext.initial) /\
    InjectionContext.scan [reporting_scanner [dep_c]; reporting_scanner [dep_b; dep_a]]
      (ArgFunction recording_producer) InjectionContext.initial
      = (Return r', InjectionContext.initial) /\
    (forall n, n ∈ r <-> n ∈ r') /\
    (NoDup (calls (snd (call (ArgFunction recording_producer) (session None)))) -> r ≡ₚ r').
Proof.
  apply (scan_members_do_not_depend_on_scanner_order
           [reporting_scanner [dep_b; dep_a]; reporting_scanner [dep_c]]
           [reporting_scanner [dep_c]; reporting_scanner [dep_b; dep_a]]
           [[dep_b; dep_a]; [dep_c]] [[dep_c]; [dep_b; dep_a]]).
  - reflexivity.
  - repeat constructor.
  - repeat constructor.
  - apply perm_swap.
Defined.




(** ** The diagnostics switch under resets *)

Lemma run_calls_cons (c : DiagnosticsCalls.Call) (cs : list DiagnosticsCalls.Call)
    (s : Diagnostics.PluginState) :
  DiagnosticsCalls.run_calls (c :: cs) s
  = DiagnosticsCalls.run_calls cs (DiagnosticsCalls.run_call c s).
Proof. reflexivity. Qed.

(** X6.  Over any sequence of calls of [enableIllumaDiagnostics] and
    [__resetDiagnosticsState], from any state: nothing registered is ever
    removed or reordered, the default reporter and the performance middleware
    are appended in lockstep, the same number [k] of times, and [k] is at most
    the number of resets, plus one if the switch started off.  A switch that
    started off registers at least once as soon as it is enabled. *)
Theorem diagnostics_calls_register_in_lockstep
    (cs : list DiagnosticsCalls.Call) (s : Diagnostics.PluginState) :
  exists k,
    Diagnostics.diagnostics (DiagnosticsCalls.run_calls cs s)
      = Diagnostics.diagnostics s ++ replicate k Diagnostics.DiagnosticsDefaultReporter /\
    Diagnostics.globalMiddlewares (DiagnosticsCalls.run_calls cs s)
      = Diagnostics.globalMiddlewares s ++ replicate k Diagnostics.performanceDiagnostics /\
    k <= (if Diagnostics.enabled s then 0 else 1)
         + length (filter (fun c => c = DiagnosticsCalls.Reset) cs) /\
    (Diagnostics.enabled s = false -> DiagnosticsCalls.Enable ∈ cs -> 1 <= k).
Proof.
  revert s. induction cs as [|c cs IH]; intros s.
  - exists 0. cbn [DiagnosticsCalls.run_calls foldl replicate].
    rewrite !app_nil_r. split_and!; [done | done | lia |].
    intros _ []%elem_of_nil.
  - rewrite run_calls_cons. destruct c; cbn [DiagnosticsCalls.run_call].
    + destruct (Diagnostics.enabled s) eqn:E.
      * unfold Diagnostics.enableIllumaDiagnostics. rewrite E.
        destruct (IH s) as (k & Hd & Hm & Hk & _). rewrite E in Hk.
        exists k. rewrite filter_cons_False by done.
        split_and!; [done | done | exact Hk | discriminate].
      * destruct (IH (Diagnostics.enableIllumaDiagnostics s)) as (k & Hd & Hm & Hk & _).
        rewrite enableIllumaDiagnostics_enabled in Hk.
        unfold Diagnostics.enableIllumaDiagnostics in Hd at 2, Hm at 2.
        rewrite E in Hd, Hm. cbn in Hd, Hm.
        exists (S k). rewrite filter_cons_False by done. cbn [replicate].
        rewrite Hd, Hm, <- !app_assoc. split_and!; [done | done | lia | lia].
    + destruct (IH (Diagnostics.__resetDiagnosticsState s)) as (k & Hd & Hm & Hk & Hone).
      exists k. rewrite filter_cons_True by done.
      cbn [Diagnostics.__resetDiagnosticsState Diagnostics.set_enabled
           Diagnostics.enabled Diagnostics.diagnostics Diagnostics.globalMiddlewares]
        in Hd, Hm, Hk, Hone.
      split_and!; [done | done | cbn [length]; destruct (Diagnostics.enabled s); lia |].
      intros _ Hin. apply Hone; [done|].
      apply elem_of_cons in Hin as [?|?]; [discriminate | done].
Qed.

Lemma diagnostics_calls_register_in_lockstep_witness :
  exists k,
    Diagnostics.diagnostics
      (DiagnosticsCalls.run_calls
         [DiagnosticsCalls.Enable; DiagnosticsCalls.Enable;
          DiagnosticsCalls.Reset; DiagnosticsCalls.Enable]
         (Diagnostics.loaded [Diagnostics.CustomModule 1] []))
      = [Diagnostics.CustomModule 1]
        ++ replicate k Diagnostics.DiagnosticsDefaultReporter /\
    k <= 2 /\ 1 <= k.
Proof.
  destruct (diagnostics_calls_register_in_lockstep
              [DiagnosticsCalls.Enable; DiagnosticsCalls.Enable;
               DiagnosticsCalls.Reset; DiagnosticsCalls.Enable]
              (Diagnostics.loaded [Diagnostics.CustomModule 1] []))
    as (k & Hd & _ & Hk & Hone).
  exists k. split_and!.
  - exact Hd.
  - exact Hk.
  - apply Hone; [reflexivity | apply list_elem_of_here].
Defined.

Lemma round_run (n : nat) (s : Diagnostics.PluginState) :
  DiagnosticsCalls.round n s =
  {| Diagnostics.enabled := true;
     Diagnostics.diagnostics :=
       Diagnostics.diagnostics s ++ [Diagnostics.DiagnosticsDefaultReporter];
     Diagnostics.globalMiddlewares :=
       Diagnostics.globalMiddlewares s ++ [Diagnostics.performanceDiagnostics] |}.
Proof.
  unfold DiagnosticsCalls.round. rewrite enableIllumaDiagnostics_iter. reflexivity.
Qed.

(** X7.  The flag is the only guard, and a reset clears only the flag: each
    round of a reset followed by one or more calls of the switch registers
    the reporter and the middleware once more, so after [k] rounds, however
    many calls each round made, [k] further copies of each are registered
    and the switch is on. *)
Theorem diagnostics_reset_rounds_accumulate
    (rounds : list nat) (s : Diagnostics.PluginState) :
  let after := foldl (fun acc n => DiagnosticsCalls.round n acc) s rounds in
  Diagnostics.diagnostics after
    = Diagnostics.diagnostics s
      ++ replicate (length rounds) Diagnostics.DiagnosticsDefaultReporter /\
  Diagnostics.globalMiddlewares after
    = Diagnostics.globalMiddlewares s
      ++ replicate (length rounds) Diagnostics.performanceDiagnostics /\
  Diagnostics.registered Diagnostics.DiagnosticsDefaultReporter (Diagnostics.diagnostics after)
    = Diagnostics.registered Diagnostics.DiagnosticsDefaultReporter (Diagnostics.diagnostics s)
      + length rounds /\
  Diagnostics.enabled after
    = match rounds with [] => Diagnostics.enabled s | _ :: _ => true end.
Proof.
  cbv zeta. revert s. induction rounds as [|n rounds IH]; intros s.
  - cbn [foldl length replicate]. rewrite !app_nil_r.
    split_and!; [done | done | lia | done].
  - cbn [foldl length replicate]. rewrite round_run.
    destruct (IH {| Diagnostics.enabled := true;
       Diagnostics.diagnostics :=
         Diagnostics.diagnostics s ++ [Diagnostics.DiagnosticsDefaultReporter];
       Diagnostics.globalMiddlewares :=
         Diagnostics.globalMiddlewares s ++ [Diagnostics.performanceDiagnostics] |})
      as (Hd & Hm & Hr & He).
    cbn [Diagnostics.enabled Diagnostics.diagnostics Diagnostics.globalMiddlewares]
      in Hd, Hm, Hr, He.
    rewrite Hr, Hd, Hm, registered_snoc, <- !app_assoc.
    split_and!; [done | done | lia |].
    rewrite He. by destruct rounds.
Qed.

(** ** Tokens: what the printed form tells *)

Lemma append_bracket_inj (n m : string) :
  n +:+ "]" = m +:+ "]" -> n = m.
Proof.
  revert m. induction n as [|c n IH]; intros [|d m] H; cbn in H.
  - reflexivity.
  - injection H as _ H. destruct m; discriminate.
  - injection H as _ H. destruct n; discriminate.
  - injection H as -> H. f_equal. by apply IH.
Qed.

Lemma toString_inj (t1 t2 : TokenModel.NodeBase) :
  TokenModel.toString t1 = TokenModel.toString t2 ->
  TokenModel.cls t1 = TokenModel.cls t2 /\ TokenModel.name t1 = TokenModel.name t2.
Proof.
  unfold TokenModel.toString.
  destruct (TokenModel.cls t1), (TokenModel.cls t2); cbn; intros H;
    try discriminate;
    (split; [reflexivity|]); apply append_bracket_inj;
    exact (inj (String.app _) _ _ H).
Qed.

(** X8.  The three classes print with three different prefixes, so the
    printed form of a token tells its class and its name and nothing else:
    two tokens print alike exactly when they are of the same class and carry
    the same name, whatever their identity and options; tokens that print
    alike are therefore treated alike by [isNodeBase] and have the same
    [multi] mark. *)
Theorem toString_tells_class_and_name (t1 t2 : TokenModel.NodeBase) :
  (TokenModel.toString t1 = TokenModel.toString t2 <->
   TokenModel.cls t1 = TokenModel.cls t2 /\ TokenModel.name t1 = TokenModel.name t2) /\
  (TokenModel.toString t1 = TokenModel.toString t2 ->
   TokenModel.isNodeBase t1 = TokenModel.isNodeBase t2 /\
   TokenModel.multi t1 = TokenModel.multi t2).
Proof.
  split; [split|].
  - apply toString_inj.
  - intros [Hc Hn]. unfold TokenModel.toString. by rewrite Hc, Hn.
  - intros H. destruct (toString_inj _ _ H) as [Hc _].
    unfold TokenModel.isNodeBase, TokenModel.multi. by rewrite Hc.
Qed.

Lemma toString_tells_class_and_name_witness :
  TokenModel.isNodeBase (TokenModel.MultiNodeToken 1 "Plugins" None)
    = TokenModel.isNodeBase (TokenModel.MultiNodeToken 2 "Plugins" None) /\
  TokenModel.multi (TokenModel.MultiNodeToken 1 "Plugins" None)
    = TokenModel.multi (TokenModel.MultiNodeToken 2 "Plugins" None).
Proof.
  apply (toString_tells_class_and_name
           (TokenModel.MultiNodeToken 1 "Plugins" None)
           (TokenModel.MultiNodeToken 2 "Plugins" None)).
  reflexivity.
Defined.

(** ** The injectable marker *)

(** X11.  [NodeInjectable] marks a class with a token that [isNodeBase]
    accepts and that is single, never multi; the token is named after the
    class alone, so the markers of two classes print alike exactly when the
    classes have the same name; and decorating a class again replaces the
    marker, the earlier token leaving no trace. *)
Theorem NodeInjectable_marks_with_a_single_token_named_after_the_class
    (r1 r2 : TokenRef) (k1 k2 : TokenModel.Constructor) :
  exists t1 t2,
    TokenModel.ctor_marker (TokenModel.NodeInjectable r1 k1) = Some t1 /\
    TokenModel.ctor_marker (TokenModel.NodeInjectable r2 k2) = Some t2 /\
    TokenModel.isNodeBase t1 = true /\
    TokenModel.multi t1 = false /\
    TokenModel.ref t1 = r1 /\
    (TokenModel.toString t1 = TokenModel.toString t2 <->
     TokenModel.ctor_name k1 = TokenModel.ctor_name k2) /\
    TokenModel.NodeInjectable r2 (TokenModel.NodeInjectable r1 k1)
      = TokenModel.NodeInjectable r2 k1.
Proof.
  eexists _, _. split_and!; try reflexivity.
  split.
  - intros H. apply toString_inj in H as [_ H]. cbn in H.
    exact (inj (String.app _) _ _ H).
  - intros H. unfold TokenModel.toString. cbn. by rewrite H.
Qed.

(** ** The performance middleware *)

Lemma mw_bind_run {A B} (m : Middleware.MW A) (k : A -> Middleware.MW B)
    (w : Middleware.World) :
  (m ≫= k) w =
  match m w with
  | (Return a, w') => k a w'
  | (Throw e, w') => (Throw e, w')
  end.
Proof. reflexivity. Qed.

Lemma performanceDiagnostics_run (params : Middleware.iInstantiationParams)
    (next : Middleware.iInstantiationParams -> Middleware.MW Value)
    (w : Middleware.World) :
  Middleware.deps params <> [] ->
  Middleware.performanceDiagnostics params next w =
  match next params (Middleware.after_reads 1 w) with
  | (Return v, w') =>
      (Return v,
       {| Middleware.w_ctx := Middleware.w_ctx w';
          Middleware.console := Middleware.console w'
            ++ [Middleware.Instantiated (TokenModel.name (Middleware.token params))
                  (Middleware.clock_reads w) (Middleware.clock_reads w')];
          Middleware.clock_reads := S (Middleware.clock_reads w') |})
  | (Throw e, w') => (Throw e, w')
  end.
Proof.
  intros Hdeps. unfold Middleware.performanceDiagnostics.
  destruct (Middleware.deps params) as [|d ds]; [done|]. cbn [length Nat.eqb].
  rewrite mw_bind_run. cbn [Middleware.performance_now]. rewrite mw_bind_run.
  change {| Middleware.w_ctx := Middleware.w_ctx w;
            Middleware.console := Middleware.console w;
            Middleware.clock_reads := S (Middleware.clock_reads w) |}
    with (Middleware.after_reads 1 w).
  destruct (next params (Middleware.after_reads 1 w)) as [[v|e] w']; reflexivity.
Qed.

Lemma after_reads_S (k : nat) (w : Middleware.World) :
  Middleware.after_reads k (Middleware.after_reads 1 w)
  = Middleware.after_reads (S k) w.
Proof.
  unfold Middleware.after_reads. cbn. f_equal. lia.
Qed.

Lemma stacked_lines_S (name : string) (k entered left : nat) :
  Middleware.stacked_lines name (S k) entered left
  = Middleware.stacked_lines name k entered left
    ++ [Middleware.Instantiated name (entered - S k) (left + k)].
Proof.
  unfold Middleware.stacked_lines. rewrite seq_S, fmap_app. reflexivity.
Qed.

(** X9.  An instantiation without dependencies is not measured: with an empty
    [deps] the middleware, however many times it is applied around the rest
    of the chain, is the rest of the chain itself; it reads no clock and
    prints nothing. *)
Theorem performanceDiagnostics_skips_leaf_instantiations
    (k : nat) (params : Middleware.iInstantiationParams)
    (rest : Middleware.iInstantiationParams -> Middleware.MW Value) :
  Middleware.deps params = [] ->
  Middleware.stacked k Middleware.performanceDiagnostics rest params = rest params.
Proof.
  intros Hdeps. induction k as [|k IH]; [reflexivity|].
  cbn [Middleware.stacked]. unfold Middleware.performanceDiagnostics at 1.
  rewrite Hdeps. cbn [length Nat.eqb]. exact IH.
Qed.

Lemma performanceDiagnostics_skips_leaf_instantiations_witness :
  Middleware.stacked 3 Middleware.performanceDiagnostics
    (Middleware.instantiating sample_resolver) (Middleware.service_params [])
  = Middleware.instantiating sample_resolver (Middleware.service_params []).
Proof.
  apply performanceDiagnostics_skips_leaf_instantiations. reflexivity.
Defined.

(** X10.  With dependencies, the middleware is transparent to the result and
    measures around it.  Applied [k] times around the rest of the chain, it
    takes [k] readings of the clock, hands the parameters on unchanged, and
    then: if the rest throws, the error leaves as it is, with no further
    reading and nothing printed; if the rest returns, the same value is
    returned after [k] more readings and exactly [k] printed lines, each
    naming the token, the innermost first. *)
Theorem performanceDiagnostics_measures_and_passes_through
    (k : nat) (params : Middleware.iInstantiationParams)
    (rest : Middleware.iInstantiationParams -> Middleware.MW Value)
    (w : Middleware.World) :
  Middleware.deps params <> [] ->
  Middleware.stacked k Middleware.performanceDiagnostics rest params w =
  match rest params (Middleware.after_reads k w) with
  | (Return v, w') =>
      (Return v,
       {| Middleware.w_ctx := Middleware.w_ctx w';
          Middleware.console := Middleware.console w'
            ++ Middleware.stacked_lines (TokenModel.name (Middleware.token params)) k
                 (k + Middleware.clock_reads w) (Middleware.clock_reads w');
          Middleware.clock_reads := k + Middleware.clock_reads w' |})
  | (Throw e, w') => (Throw e, w')
  end.
Proof.
  intros Hdeps. revert w. induction k as [|k IH]; intros w.
  - cbn [Middleware.stacked Middleware.stacked_lines seq fmap list_fmap].
    replace (Middleware.after_reads 0 w) with w by (by destruct w).
    destruct (rest params w) as [[v|e] w']; [|reflexivity].
    rewrite app_nil_r. by destruct w'.
  - cbn [Middleware.stacked]. rewrite performanceDiagnostics_run by done.
    rewrite IH, after_reads_S.
    destruct (rest params (Middleware.after_reads (S k) w)) as [[v|e] w']; [|reflexivity].
    cbn [Middleware.w_ctx Middleware.console Middleware.clock_reads
         Middleware.after_reads].
    rewrite stacked_lines_S, <- app_assoc.
    replace (k + (1 + Middleware.clock_reads w)) with (S k + Middleware.clock_reads w)
      by lia.
    replace (S k + Middleware.clock_reads w - S k) with (Middleware.clock_reads w)
      by lia.
    replace (Middleware.clock_reads w' + k) with (k + Middleware.clock_reads w')
      by lia.
    reflexivity.
Qed.

Lemma performanceDiagnostics_measures_and_passes_through_witness :
  Middleware.stacked 2 Middleware.performanceDiagnostics
    (Middleware.instantiating sample_resolver) (Middleware.service_params [2; 3])
    (Middleware.quiet outer_session)
  = (Return (VNum 7),
     {| Middleware.w_ctx := InjectionContext.initial;
        Middleware.console :=
          [Middleware.Instantiated "Service" 1 2; Middleware.Instantiated "Service" 0 3];
        Middleware.clock_reads := 4 |}).
Proof.
  exact (performanceDiagnostics_measures_and_passes_through 2
           (Middleware.service_params [2; 3]) (Middleware.instantiating sample_resolver)
           (Middleware.quiet outer_session) ltac:(discriminate)).
Defined.
